(** * Attribute resolution of the policy engine (fieldmapper.go)

    A shallow embedding of [core/policyengine/engine/fieldmapper.go]:
    the registry of attribute mappers, the three resolution entry points
    (generic, integer, string), the coercions they apply and the extractor
    factories the claims are about, together with the parts of the Go
    standard library these functions call ([strconv], [strings], [sort],
    [fmt.Sscanf]), specialised to the arguments the program passes. *)

From Stdlib Require Import ZArith Ascii Permutation.
From Stdlib Require String Sorted.
From stdpp Require Import base option list gmap strings sorting.

Local Open Scope Z_scope.

(** ** Machine integers *)

(** Go's [int64] and [uint64] are kept as [Z]; arithmetic that can leave the
    range is wrapped explicitly, as the hardware does. *)
Module Int64.
Definition min : Z := - 2 ^ 63.
Definition max : Z := 2 ^ 63 - 1.
Definition in_range (z : Z) : Prop := min <= z <= max.
Definition wrap (z : Z) : Z := (z + 2 ^ 63) mod 2 ^ 64 - 2 ^ 63.
End Int64.

Module Uint64.
Definition max : Z := 2 ^ 64 - 1.
Definition in_range (z : Z) : Prop := 0 <= z <= max.
Definition wrap (z : Z) : Z := z mod 2 ^ 64.
End Uint64.

(** ** Bytes of a Go string *)

(** A Go [string] is a sequence of bytes: Rocq's [string], whose characters
    are the 256 values of [ascii]. *)
Definition byte_val (c : ascii) : Z := Z.of_N (N_of_ascii c).

Definition byte_of (z : Z) : ascii := ascii_of_N (Z.to_N z).

(** [s[i]], where the index is known to be in range. *)
Definition index (s : string) (i : nat) : option ascii := String.get i s.

(** ** strconv *)

Module strconv.

(** The two failures of [strconv.ParseInt] and [strconv.ParseUint] that a
    caller can tell apart ([ErrSyntax], [ErrRange]), and the two argument
    errors. *)
Inductive NumError := ErrSyntax | ErrRange | ErrBase | ErrBitSize.

(** [lower(c)]: [c | ('x' - 'X')]. *)
Definition lower (c : Z) : Z := Z.lor c 32.

(** The digit a byte stands for, as the [switch] of [ParseUint]'s loop
    computes it (base 0, the only one that accepts underscores, apart). *)
Definition digit_of (c : ascii) : option Z :=
  let b := byte_val c in
  if (48 <=? b) && (b <=? 57) then Some (b - 48)
  else if (97 <=? lower b) && (lower b <=? 122) then Some (lower b - 97 + 10)
  else None.

(** The loop of [ParseUint]: [n] is the value read so far. *)
Fixpoint ParseUint_loop (base maxVal cutoff : Z) (s : string) (n : Z)
  : Z * option NumError :=
  match s with
  | EmptyString => (n, None)
  | String c s' =>
      match digit_of c with
      | None => (0, Some ErrSyntax)
      | Some d =>
          if d >=? base then (0, Some ErrSyntax)
          else if n >=? cutoff then (maxVal, Some ErrRange)
          else
            let n' := Uint64.wrap (n * base) in
            let n1 := Uint64.wrap (n' + d) in
            if (n1 <? n') || (n1 >? maxVal) then (maxVal, Some ErrRange)
            else ParseUint_loop base maxVal cutoff s' n1
      end
  end.

(** [strconv.ParseUint(s, base, bitSize)] for an explicit base
    [2 <= base <= 36] and [1 <= bitSize <= 64]. Base 0 (the base taken from
    the literal's prefix) and bit size 0 are never passed by this program
    and are reported as argument errors here. *)
Definition ParseUint (s : string) (base bitSize : Z) : Z * option NumError :=
  match s with
  | EmptyString => (0, Some ErrSyntax)
  | _ =>
      if negb ((2 <=? base) && (base <=? 36)) then (0, Some ErrBase)
      else if negb ((1 <=? bitSize) && (bitSize <=? 64)) then (0, Some ErrBitSize)
      else
        let cutoff := Uint64.max / base + 1 in
        let maxVal := 2 ^ bitSize - 1 in
        ParseUint_loop base maxVal cutoff s 0
  end.

(** [strconv.ParseInt(s, base, bitSize)], same restrictions. *)
Definition ParseInt (s : string) (base bitSize : Z) : Z * option NumError :=
  match s with
  | EmptyString => (0, Some ErrSyntax)
  | String c0 s' =>
      let '(neg, digits) :=
        if Ascii.eqb c0 "+" then (false, s')
        else if Ascii.eqb c0 "-" then (true, s')
        else (false, s) in
      match ParseUint digits base bitSize with
      | (_, Some ErrRange) as r | (_, None) as r =>
          let un := fst r in
          let cutoff := 2 ^ (bitSize - 1) in
          if negb neg && (un >=? cutoff) then (cutoff - 1, Some ErrRange)
          else if neg && (un >? cutoff) then (- cutoff, Some ErrRange)
          else (if neg then - un else un, None)
      | (_, Some e) => (0, Some e)
      end
  end.

(** The digit characters of [formatBits]: ["0123456789abc..."], of which
    base 10 uses the first ten. *)
Definition digit_char (d : Z) : ascii := byte_of (48 + d).

(** The loop of [formatBits] for base 10: the decimal digits of [u] are
    written from the least significant one, in front of those already
    written (the source writes them two at a time from a table of the
    hundred pairs, which gives the same digits). A [uint64] has at most 20
    decimal digits, which bounds the loop. *)
Fixpoint formatBits_loop (fuel : nat) (u : Z) (acc : string) : string :=
  match fuel with
  | O => acc
  | S fuel' =>
      if u <? 10 then String (digit_char u) acc
      else formatBits_loop fuel' (u / 10) (String (digit_char (u mod 10)) acc)
  end.

(** [strconv.FormatInt(i, 10)]. *)
Definition FormatInt (i : Z) : string :=
  let neg := i <? 0 in
  let u := if neg then Uint64.wrap (- Uint64.wrap i) else Uint64.wrap i in
  let digits := formatBits_loop 20 u EmptyString in
  if neg then String "-" digits else digits.

(** [strconv.FormatBool]. *)
Definition FormatBool (b : bool) : string :=
  if b then "true" else "false".

End strconv.

(** ** Values, records and mappers *)

(** What an [interface{}] returned by a mapper holds: the three dynamic types
    the coercions test for, and any other (a [nil] or a value of another
    type coming out of the record cache). *)
Inductive Value :=
| VInt (i : Z)
| VStr (s : string)
| VBool (b : bool)
| VOther.

(** A Go call either returns or panics (here only through an index out of
    range). *)
Inductive result (A : Type) :=
| Ok (a : A)
| Panic.
Arguments Ok {A} a.
Arguments Panic {A}.

(** A panic in a callee unwinds through its callers: none of the functions
    here recovers. Sequencing is written [x ← e; k]. *)
#[global] Instance result_ret : MRet result := fun _ a => Ok a.
#[global] Instance result_bind : MBind result := fun _ _ f x =>
  match x with
  | Ok a => f a
  | Panic => Panic
  end.

(** [sfgo.Attribute] and [flattener.Source] are integer identifiers. *)
Definition Attribute := Z.
Definition Source := Z.

(** [sfgo.OID]. *)
Record OID := { CreateTS : Z; Hpid : Z }.

(** Modelled from the spec: the [Record] type and its getters live in another
    file of the package; the spec gives the interface [GetStr(fieldId,
    source) -> string], [GetInt(fieldId, source) -> int64] and
    [GetCachedValue(objectId, cachedAttribute) -> Value], read-only. The
    stored integers are read as [int64]. *)
Record Record := {
  strs : Attribute -> Source -> string;
  ints : Attribute -> Source -> Z;
  cache : OID -> Z -> Value
}.

Definition GetStr (r : Record) (attr : Attribute) (src : Source) : string :=
  strs r attr src.

Definition GetInt (r : Record) (attr : Attribute) (src : Source) : Z :=
  Int64.wrap (ints r attr src).

Definition GetCachedValue (r : Record) (oid : OID) (attr : Z) : Value :=
  cache r oid attr.

(** Modelled from the spec: [sfgo.Zeros] holds the zero value of each type
    (the integer zero, the empty string). *)
Module Zeros.
Definition Int64 : Z := 0.
Definition String : string := "".
End Zeros.

(** [FieldMap], [IntFieldMap], [StrFieldMap]. *)
Definition FieldMap := Record -> result Value.
Definition IntFieldMap := Record -> result Z.
Definition StrFieldMap := Record -> result string.

(** [FieldMapper]. *)
Record FieldMapper := { Mappers : gmap string FieldMap }.

(** ** The three resolution entry points *)

(** [FieldMapper.Map]. *)
Definition Map (m : FieldMapper) (attr : string) : FieldMap :=
  match Mappers m !! attr with
  | Some mapper => mapper
  | None => fun _ => Ok (VStr attr)
  end.

(** [FieldMapper.MapInt]. *)
Definition MapInt (m : FieldMapper) (attr : string) : IntFieldMap :=
  fun r =>
    x ← Map m attr r;
    match x with
    | VInt v => Ok v
    | _ =>
        match strconv.ParseInt attr 10 64 with
        | (v, None) => Ok v
        | (_, Some _) => Ok Zeros.Int64
        end
    end.

(** The two quote characters: the double quote (byte 34) and ['\'']. *)
Definition dquote : ascii := "034".

Definition is_quote (c : ascii) : bool :=
  Ascii.eqb c dquote || Ascii.eqb c "'".

(** [FieldMapper.trimBoundingQuotes]: [s[1:]] is [substring 1 (len - 1)],
    [s[:len(s)-1]] is [substring 0 (len - 1)]. *)
Definition trimBoundingQuotes (s : string) : string :=
  let s :=
    if (0 <? String.length s)%nat && from_option is_quote false (index s 0)
    then String.substring 1 (String.length s - 1) s
    else s in
  let s :=
    if (0 <? String.length s)%nat
       && from_option is_quote false (index s (String.length s - 1))
    then String.substring 0 (String.length s - 1) s
    else s in
  s.

(** [FieldMapper.MapStr]. *)
Definition MapStr (m : FieldMapper) (attr : string) : StrFieldMap :=
  fun r =>
    x ← Map m attr r;
    match x with
    | VStr v => Ok (trimBoundingQuotes v)
    | VInt v => Ok (strconv.FormatInt v)
    | VBool v => Ok (strconv.FormatBool v)
    | VOther => Ok Zeros.String
    end.

(** ** The sorted enumeration of the attribute names *)

Module strings.

(** [strings.Split(s, sep)] for a separator of one byte: the pieces between
    the occurrences of the separator, one more than there are occurrences. *)
Fixpoint Split (s : string) (sep : ascii) : list string :=
  match s with
  | EmptyString => [EmptyString]
  | String c s' =>
      if Ascii.eqb c sep then EmptyString :: Split s' sep
      else
        match Split s' sep with
        | piece :: pieces => String c piece :: pieces
        | [] => [String c EmptyString]
        end
  end.

(** [strings.Compare(a, b)]: -1, 0 or +1 by the order of the bytes. *)
Definition Compare (a b : string) : Z :=
  match String.compare a b with
  | Lt => -1
  | Eq => 0
  | Gt => 1
  end.

End strings.

Module sort.

Section SliceStable.
Context {A : Type} (less : A -> A -> bool).

(** The inner loop of [insertionSort]: the element at index [i] is swapped
    towards the front while it is less than its left neighbour. The part
    of the slice before [i] is held from right to left. *)
Fixpoint sift (x : A) (before : list A) : list A :=
  match before with
  | [] => [x]
  | y :: before' => if less x y then y :: sift x before' else x :: before
  end.

(** [sort.SliceStable(data, less)]: an insertion sort keeps elements that
    [less] does not order in their original order, which is all that
    [SliceStable] promises (beyond 20 elements it merges blocks that were
    sorted by insertion, keeping the same order). *)
Definition SliceStable (data : list A) : list A :=
  rev (fold_left (fun before x => sift x before) data []).

End SliceStable.

End sort.

(** The comparison passed to [sort.SliceStable] by [getFields]. *)
Definition fields_less (a b : string) : bool :=
  let ki := Z.of_nat (length (strings.Split a ".")) in
  let kj := Z.of_nat (length (strings.Split b ".")) in
  if ki =? kj then strings.Compare a b <? 0 else ki <? kj.

(** Ranging over a Go map visits every key once, in an order that is not
    specified and changes from run to run: [keys] is a possible order. *)
Definition range_keys {V} (m : gmap string V) (keys : list string) : Prop :=
  keys ≡ₚ (map_to_list m).*1.

(** [getFields], for the order [keys] in which the [range] loop visits the
    keys of [Mapper.Mappers]. *)
Definition getFields (keys : list string) : list string :=
  sort.SliceStable fields_less keys.

(** ** Scanning a link path *)

(** [fmt.Sscanf] reads its input rune by rune. *)
Module utf8.

Definition RuneError : Z := 65533.
Definition MaxRune : Z := 1114111.

(** One entry of the table [first]: an ASCII byte, an invalid first byte, or
    the first byte of a sequence of [sz] bytes whose second byte must lie in
    [lo..hi] (the entry of [acceptRanges]). *)
Inductive first_info :=
| AS
| XX
| Lead (sz : nat) (lo hi : Z).

Definition first (p0 : Z) : first_info :=
  if p0 <? 128 then AS
  else if p0 <? 194 then XX
  else if p0 <? 224 then Lead 2 128 191
  else if p0 =? 224 then Lead 3 160 191
  else if p0 <? 237 then Lead 3 128 191
  else if p0 =? 237 then Lead 3 128 159
  else if p0 <? 240 then Lead 3 128 191
  else if p0 =? 240 then Lead 4 144 191
  else if p0 <? 244 then Lead 4 128 191
  else if p0 =? 244 then Lead 4 128 143
  else XX.

(** A continuation byte lies in [locb..hicb]; [maskx] keeps its six bits. *)
Definition cont (b : Z) : bool := (128 <=? b) && (b <=? 191).
Definition low6 (b : Z) : Z := Z.land b 63.

(** The runes of a string, as repeated [utf8.DecodeRune] yields them: a byte
    that does not start a complete, valid sequence is read alone, as
    [RuneError]. *)
Fixpoint runes (s : string) : list Z :=
  match s with
  | EmptyString => []
  | String c0 s1 =>
      let p0 := byte_val c0 in
      match first p0 with
      | AS => p0 :: runes s1
      | XX => RuneError :: runes s1
      | Lead sz lo hi =>
          match s1 with
          | String c1 s2 =>
              let b1 := byte_val c1 in
              if negb ((lo <=? b1) && (b1 <=? hi)) then RuneError :: runes s1
              else if (sz <=? 2)%nat then
                Z.lor (Z.shiftl (Z.land p0 31) 6) (low6 b1) :: runes s2
              else
                match s2 with
                | String c2 s3 =>
                    let b2 := byte_val c2 in
                    if negb (cont b2) then RuneError :: runes s1
                    else if (sz <=? 3)%nat then
                      Z.lor (Z.lor (Z.shiftl (Z.land p0 15) 12)
                                   (Z.shiftl (low6 b1) 6))
                            (low6 b2) :: runes s3
                    else
                      match s3 with
                      | String c3 s4 =>
                          let b3 := byte_val c3 in
                          if negb (cont b3) then RuneError :: runes s1
                          else
                            Z.lor (Z.lor (Z.lor (Z.shiftl (Z.land p0 7) 18)
                                                (Z.shiftl (low6 b1) 12))
                                         (Z.shiftl (low6 b2) 6))
                                  (low6 b3) :: runes s4
                      | EmptyString => RuneError :: runes s1
                      end
                | EmptyString => RuneError :: runes s1
                end
          | EmptyString => RuneError :: runes s1
          end
      end
  end.

Definition bytes (l : list Z) : string :=
  fold_right (fun b s => String (byte_of b) s) EmptyString l.

(** [utf8.EncodeRune]. *)
Definition EncodeRune (r : Z) : string :=
  let i := Z.land r 4294967295 in
  let three (r : Z) :=
    bytes [Z.lor 224 (Z.shiftr r 12);
           Z.lor 128 (low6 (Z.shiftr r 6));
           Z.lor 128 (low6 r)] in
  if i <=? 127 then bytes [r]
  else if i <=? 2047 then
    bytes [Z.lor 192 (Z.shiftr r 6); Z.lor 128 (low6 r)]
  else if (i >? MaxRune) || ((55296 <=? i) && (i <=? 57343)) then
    three RuneError
  else if i <=? 65535 then three r
  else
    bytes [Z.lor 240 (Z.shiftr r 18);
           Z.lor 128 (low6 (Z.shiftr r 12));
           Z.lor 128 (low6 (Z.shiftr r 6));
           Z.lor 128 (low6 r)].

(** The bytes a buffer holds after the runes [rs] were written to it. *)
Definition encode (rs : list Z) : string :=
  fold_right (fun r s => EncodeRune r +:+ s) EmptyString rs.

End utf8.

Module fmt.

(** [isSpace]: the ranges of the table [space]. *)
Definition isSpace (r : Z) : bool :=
  ((9 <=? r) && (r <=? 13)) || (r =? 32) || (r =? 133) || (r =? 160)
  || (r =? 5760) || ((8192 <=? r) && (r <=? 8202))
  || ((8232 <=? r) && (r <=? 8233)) || (r =? 8239) || (r =? 8287)
  || (r =? 12288).

(** [hexadecimalDigits], as runes. *)
Definition isHexDigit (r : Z) : bool :=
  ((48 <=? r) && (r <=? 57)) || ((97 <=? r) && (r <=? 102))
  || ((65 <=? r) && (r <=? 70)).

(** The scanner state [ss] is the list of the runes that are left to read.
    Each operation returns what it read and the runes left, or [None] for a
    scan error (the panic that [errorHandler] turns into the returned
    [err]). The limit of 2^30 runes that [ss] places on its input is not
    modelled. *)

(** [ss.SkipSpace] with [nlIsSpace] unset, as [Sscanf] has it: a newline
    is an error. *)
Fixpoint SkipSpace (rs : list Z) : option (unit * list Z) :=
  match rs with
  | [] => Some (tt, [])
  | r :: rs' =>
      if (r =? 13) && match rs' with 10 :: _ => true | _ => false end
      then SkipSpace rs'
      else if r =? 10 then None
      else if negb (isSpace r) then Some (tt, rs)
      else SkipSpace rs'
  end.

(** [ss.notEOF]. *)
Definition notEOF (rs : list Z) : option (unit * list Z) :=
  match rs with
  | [] => None
  | _ => Some (tt, rs)
  end.

(** The loop [for s.accept(digits) {}]: the runes accepted and the rest. *)
Fixpoint accept_all (ok : Z -> bool) (rs : list Z) : list Z * list Z :=
  match rs with
  | r :: rs' =>
      if ok r then let '(tok, rest) := accept_all ok rs' in (r :: tok, rest)
      else ([], rs)
  | [] => ([], [])
  end.

(** [ss.scanNumber(digits, false)]. *)
Definition scanNumber (ok : Z -> bool) (rs : list Z) : option (string * list Z) :=
  match rs with
  | r :: rs' =>
      if ok r then
        let '(tok, rest) := accept_all ok rs' in
        Some (utf8.encode (r :: tok), rest)
      else None
  | [] => None
  end.

(** [ss.scanUint('x', 64)]. *)
Definition scanUint_x (rs : list Z) : option (Z * list Z) :=
  '(_, rs) ← SkipSpace rs;
  '(_, rs) ← notEOF rs;
  '(tok, rs) ← scanNumber isHexDigit rs;
  match strconv.ParseUint tok 16 64 with
  | (i, None) => Some (i, rs)
  | (_, Some _) => None
  end.

(** [ss.convertString('s')]: [token(true, notSpace)]. *)
Definition convertString_s (rs : list Z) : option (string * list Z) :=
  '(_, rs) ← SkipSpace rs;
  '(_, rs) ← notEOF rs;
  '(_, rs) ← SkipSpace rs;
  let '(tok, rest) := accept_all (fun r => negb (isSpace r)) rs in
  Some (utf8.encode tok, rest).

(** A literal rune of the format in [ss.advance]: it must be the next rune
    of the input. *)
Definition literal (c : Z) (rs : list Z) : option (unit * list Z) :=
  match rs with
  | r :: rs' => if r =? c then Some (tt, rs') else None
  | [] => None
  end.

(** A space of the format that stands alone, in [ss.advance]: the input is
    at its end, or has a space that is not a newline; the spaces that
    follow, up to a newline, are read. *)
Fixpoint skip_blanks (rs : list Z) : list Z :=
  match rs with
  | r :: rs' => if isSpace r && negb (r =? 10) then skip_blanks rs' else rs
  | [] => []
  end.

Definition format_space (rs : list Z) : option (unit * list Z) :=
  match rs with
  | [] => Some (tt, [])
  | r :: rs' =>
      if negb (isSpace r) then None
      else if r =? 10 then None
      else Some (tt, skip_blanks rs)
  end.

(** [fmt.Sscanf(str, "%x->%x %s", &src, &dst, &targetPath)]: the three
    values read when [err] is [nil]. [doScanf] skips spaces before each
    verb; what is left of the input once the format is used up is ignored. *)
Definition Sscanf_link (str : string) : option (Z * Z * string) :=
  let rs := utf8.runes str in
  '(_, rs) ← SkipSpace rs;
  '(src, rs) ← scanUint_x rs;
  '(_, rs) ← literal 45 rs;
  '(_, rs) ← literal 62 rs;
  '(_, rs) ← SkipSpace rs;
  '(dst, rs) ← scanUint_x rs;
  '(_, rs) ← format_space rs;
  '(_, rs) ← SkipSpace rs;
  '(targetPath, _) ← convertString_s rs;
  Some (src, dst, targetPath).

End fmt.

(** ** The extractor factories *)

(** Modelled from the spec: the constants of the packages [sfgo] and
    [flattener] and of the engine's constants file are not part of the
    sources at hand; they are identifiers of fields, sources and record
    types, kept abstract. The spec fixes [SPACE]: fields are joined
    with a single-space separator. *)
Class Constants := {
  SYSFLOW_SRC : Source;
  SF_REC_TYPE : Attribute;
  RET_INT : Attribute;
  PROC_EXE_STR : Attribute;
  PROC_EXEARGS_STR : Attribute;
  FL_NETW_PROTO_INT : Attribute;
  PROC_EVT : Z;
  FILE_EVT : Z
}.

Definition SPACE : string := " ".

(** [mapStr]. *)
Definition mapStr (src : Source) (attr : Attribute) : FieldMap :=
  fun r => Ok (VStr (GetStr r attr src)).

(** [mapInt]. *)
Definition mapInt (src : Source) (attr : Attribute) : FieldMap :=
  fun r => Ok (VInt (GetInt r attr src)).

(** [mapSum]: [sum += r.GetInt(attr, src)] for each attribute in turn, in
    [int64] arithmetic. *)
Definition mapSum (src : Source) (attrs : list Attribute) : FieldMap :=
  fun r =>
    Ok (VInt (fold_left (fun sum attr => Int64.wrap (sum + GetInt r attr src))
                        attrs 0)).

(** [mapJoin]: [attrs[0]] panics on an empty list. *)
Definition mapJoin (src : Source) (attrs : list Attribute) : FieldMap :=
  fun r =>
    match attrs with
    | [] => Panic
    | attr0 :: attrs1 =>
        Ok (VStr (fold_left
                    (fun join attr => join +:+ SPACE +:+ GetStr r attr src)
                    attrs1 (GetStr r attr0 src)))
    end.

(** [mapProto]. *)
Definition mapProto (src : Source) (attr : Attribute) : FieldMap :=
  fun r => Ok (VInt (GetInt r attr src)).

(** [mapLinkPath]. *)
Definition mapLinkPath (src : Source) (attr : Attribute) : FieldMap :=
  fun r =>
    let orig := GetStr r attr src in
    match fmt.Sscanf_link orig with
    | Some (_, _, targetPath) => Ok (VStr targetPath)
    | None => Ok (VStr orig)
    end.

Section Factories.
Context `{Constants}.

(** [mapRet]: the case of [PROC_EVT] falls through to that of [FILE_EVT]. *)
Definition mapRet (src : Source) : FieldMap :=
  fun r =>
    let t := GetInt r SF_REC_TYPE src in
    if (t =? PROC_EVT) || (t =? FILE_EVT) then Ok (VInt (GetInt r RET_INT src))
    else Ok (VInt Zeros.Int64).

(** The entries of the registry [Mapper] under the keys [SF_RET],
    [SF_PROC_CMDLINE], [SF_NET_PROTO] and [SF_NET_PROTONAME]. *)
Definition Mapper_SF_RET : FieldMap := mapRet SYSFLOW_SRC.

Definition Mapper_SF_PROC_CMDLINE : FieldMap :=
  mapJoin SYSFLOW_SRC [PROC_EXE_STR; PROC_EXEARGS_STR].

Definition Mapper_SF_NET_PROTO : FieldMap :=
  mapInt SYSFLOW_SRC FL_NETW_PROTO_INT.

Definition Mapper_SF_NET_PROTONAME : FieldMap :=
  mapProto SYSFLOW_SRC FL_NETW_PROTO_INT.

End Factories.

(** * What the specification says, in its own words *)

Module Spec.

(** "Strip at most one leading quote character" and "at most one trailing
    quote character". *)
Definition strip_leading_quote (s : string) : string :=
  match s with
  | String c s' => if is_quote c then s' else s
  | EmptyString => EmptyString
  end.

Fixpoint strip_trailing_quote (s : string) : string :=
  match s with
  | EmptyString => EmptyString
  | String c EmptyString => if is_quote c then EmptyString else s
  | String c s' => String c (strip_trailing_quote s')
  end.

(** The arithmetic sum of the integer fields. *)
Definition field_sum (r : Record) (src : Source) (attrs : list Attribute) : Z :=
  foldr (fun attr acc => GetInt r attr src + acc) 0 attrs.

(** Each remaining field's string value, prefixed with a single space, in
    argument order. *)
Definition spaced_fields (r : Record) (src : Source) (attrs : list Attribute)
  : string :=
  foldr (fun attr acc => " " +:+ GetStr r attr src +:+ acc) "" attrs.

(** The value of a digit character: ['0'..'9'], then the letters of either
    case for ten and above. *)
Definition digit (c : ascii) : option Z :=
  let b := byte_val c in
  if (48 <=? b) && (b <=? 57) then Some (b - 48)
  else if (97 <=? b) && (b <=? 122) then Some (b - 87)
  else if (65 <=? b) && (b <=? 90) then Some (b - 55)
  else None.

(** The number that a string of digits of the given base denotes, read after
    the digits whose value is [acc]; no bound on its size. *)
Fixpoint digits_value (base acc : Z) (s : string) : option Z :=
  match s with
  | EmptyString => Some acc
  | String c s' =>
      d ← digit c;
      if d <? base then digits_value base (acc * base + d) s' else None
  end.

(** A numeral has at least one digit. *)
Definition numeral (base : Z) (s : string) : option Z :=
  match s with
  | EmptyString => None
  | _ => digits_value base 0 s
  end.

(** A base-10 integer literal: an optional sign, then a numeral. *)
Definition decimal_literal (s : string) : option Z :=
  match s with
  | String "+" ds => numeral 10 ds
  | String "-" ds => Z.opp <$> numeral 10 ds
  | _ => numeral 10 s
  end.

(** A 64-bit signed decimal literal: one whose value is an [int64]. *)
Definition int64_literal (s : string) : option Z :=
  v ← decimal_literal s;
  if (Int64.min <=? v) && (v <=? Int64.max) then Some v else None.

(** The decimal formatting of an integer is the literal that denotes it and
    has no redundant character: no plus sign, no zero in front of another
    digit, no minus sign in front of zero. *)
Definition canonical_digits (ds : string) : bool :=
  match ds with
  | EmptyString => false
  | String "0" EmptyString => true
  | String c _ => negb (Ascii.eqb c "0")
  end.

Definition canonical_decimal (s : string) : bool :=
  match s with
  | String "+" _ => false
  | String "-" ds => canonical_digits ds && negb (String.eqb ds "0")
  | _ => canonical_digits s
  end.

(** The number of dot-separated segments of a name: one more than it has
    dots. *)
Fixpoint dots (k : string) : nat :=
  match k with
  | EmptyString => 0
  | String c k' => if Ascii.eqb c "." then S (dots k') else dots k'
  end.

Definition segments (k : string) : nat := S (dots k).

(** The order of the enumeration: fewer segments first, and among names
    with the same number of segments the lexicographically smaller first. *)
Definition fields_le (a b : string) : Prop :=
  (segments a < segments b)%nat ∨
  (segments a = segments b ∧ String.le a b).

(** What a comparison function says of two elements that a sort by it leaves
    in this order: the second is not less than the first. *)
Definition not_after {A} (less : A -> A -> bool) (x y : A) : Prop :=
  less y x = false.


(** A 64-bit hexadecimal numeral. *)
Definition hex64 (s : string) : option Z :=
  v ← numeral 16 s;
  if v <=? Uint64.max then Some v else None.

End Spec.

(** * Sample inputs *)

(** A choice of identifiers for the abstract constants, a record and a
    registry, on which the statements below are instantiated. *)
Definition sample_constants : Constants := {|
  SYSFLOW_SRC := 0;
  SF_REC_TYPE := 0;
  RET_INT := 1;
  PROC_EXE_STR := 2;
  PROC_EXEARGS_STR := 3;
  FL_NETW_PROTO_INT := 4;
  PROC_EVT := 4;
  FILE_EVT := 7
|}.

(** A process event that returned -2, of the process [/bin/ls -l /tmp], on a
    TCP connection (protocol 6). *)
Definition sample_record : Record := {|
  strs := fun attr _ =>
    if attr =? 2 then "/bin/ls" else if attr =? 3 then "-l /tmp" else "";
  ints := fun attr _ =>
    if attr =? 0 then 4 else if attr =? 1 then -2
    else if attr =? 4 then 6 else 0;
  cache := fun _ _ => VOther
|}.

Definition sample_mapper : FieldMapper := {|
  Mappers :=
    <["sf.ret" := @mapRet sample_constants 0]>
      (<["sf.proc.exe" := mapStr 0 2]> ∅)
|}.


(** * Auxiliary definitions *)

(** The bytes of a string, as numbers. *)
Fixpoint byte_vals (s : string) : list Z :=
  match s with
  | EmptyString => []
  | String c s' => byte_val c :: byte_vals s'
  end.

(** The outcome of [ParseUint] on a string that is not a numeral that fits:
    a syntax error, or a range error with the largest value. *)
Definition uint_error (maxVal : Z) (res : Z * option strconv.NumError) : Prop :=
  res = (0, Some strconv.ErrSyntax) ∨ res = (maxVal, Some strconv.ErrRange).

(** ** The link notation, in words *)

Module Link.







End Link.

(** * The other extractor factories *)

(** Go's [int32], for the conversions [int32(x)] of an [int64]. *)
Module Int32.
Definition wrap (z : Z) : Z := (z + 2 ^ 31) mod 2 ^ 32 - 2 ^ 31.
End Int32.

(** [strings.Join(elems, sep)]. *)
Fixpoint Join (elems : list string) (sep : string) : string :=
  match elems with
  | [] => ""
  | [e] => e
  | e :: elems' => e +:+ sep +:+ Join elems' sep
  end.

(** ** path/filepath, as it is on Unix *)

(** The policy engine reads Linux telemetry: the separator is the slash,
    there are no volume names and [FromSlash] changes nothing. *)
Module filepath.

Definition Separator : ascii := "/".

Definition IsPathSeparator (c : ascii) : bool := Ascii.eqb c Separator.

Definition chars (s : string) : list ascii := String.list_ascii_of_string s.
Definition text (l : list ascii) : string := String.string_of_list_ascii l.

(** The loop [for len(path) > 0 && os.IsPathSeparator(path[len(path)-1])] of
    [Base], on the path read from its end. *)
Fixpoint strip_separators (rpath : list ascii) : list ascii :=
  match rpath with
  | c :: rpath' => if IsPathSeparator c then strip_separators rpath' else rpath
  | [] => []
  end.

(** The loop [for i >= 0 && !os.IsPathSeparator(path[i])] of [Base] and of
    [Dir], on the path read from its end: the characters after the last
    separator, and what is in front of them (the last separator
    included). *)
Fixpoint last_element (rpath : list ascii) (elem : list ascii)
  : list ascii * list ascii :=
  match rpath with
  | c :: rpath' =>
      if IsPathSeparator c then (elem, rpath)
      else last_element rpath' (c :: elem)
  | [] => (elem, [])
  end.

(** [filepath.Base]. *)
Definition Base (path : string) : string :=
  match path with
  | EmptyString => "."
  | _ =>
      let rpath := strip_separators (rev (chars path)) in
      match fst (last_element rpath []) with
      | [] => String Separator ""
      | elem => text elem
      end
  end.

(** The backtracking of [Clean] at a [..] element: [out.w--], then
    [for out.w > dotdot && !os.IsPathSeparator(out.index(out.w)) { out.w-- }].
    The buffer is held from its end, so that [out.w] is its length and the
    character at index [out.w] is the one that was dropped last. *)
Fixpoint backtrack (out : list ascii) (dotdot : nat) : list ascii :=
  match out with
  | c :: out' =>
      if (dotdot <? length out')%nat && negb (IsPathSeparator c)
      then backtrack out' dotdot
      else out'
  | [] => []
  end.

(** Is the element that starts here over: is the path at its end or at a
    separator ([r+1 == n || os.IsPathSeparator(path[r+1])])? *)
Definition element_ends (path : string) : bool :=
  match path with
  | EmptyString => true
  | String c _ => IsPathSeparator c
  end.

(** The loop [for r < n] of [Clean]: [path] is what is left to read, [out]
    the buffer written so far (from its end; the lazy buffer of the source
    holds the same bytes, without allocating while they are a prefix of the
    path), [dotdot] the index where [..] must stop. [copying] says that the
    loop is inside the inner loop that copies a path element. *)
Fixpoint Clean_loop (rooted copying : bool) (path : string)
    (out : list ascii) (dotdot : nat) : list ascii :=
  match path with
  | EmptyString => out
  | String c path' =>
      if IsPathSeparator c then Clean_loop rooted false path' out dotdot
      else if copying then Clean_loop rooted true path' (c :: out) dotdot
      else if Ascii.eqb c "." && element_ends path' then
        Clean_loop rooted false path' out dotdot
      else
        match path' with
        | String c' path'' =>
            if Ascii.eqb c "." && Ascii.eqb c' "." && element_ends path'' then
              if (dotdot <? length out)%nat then
                Clean_loop rooted false path'' (backtrack out dotdot) dotdot
              else if negb rooted then
                let out := if (0 <? length out)%nat then Separator :: out
                           else out in
                let out := "."%char :: "."%char :: out in
                Clean_loop rooted false path'' out (length out)
              else Clean_loop rooted false path'' out dotdot
            else
              let out :=
                if (rooted && negb (length out =? 1)%nat)
                   || (negb rooted && negb (length out =? 0)%nat)
                then Separator :: out else out in
              Clean_loop rooted true path' (c :: out) dotdot
        | EmptyString =>
            let out :=
              if (rooted && negb (length out =? 1)%nat)
                 || (negb rooted && negb (length out =? 0)%nat)
              then Separator :: out else out in
            Clean_loop rooted true path' (c :: out) dotdot
        end
  end.

(** [filepath.Clean]. *)
Definition Clean (path : string) : string :=
  match path with
  | EmptyString => "."
  | String c path' =>
      let out :=
        if IsPathSeparator c then Clean_loop true false path' [Separator] 1
        else Clean_loop false false path [] 0 in
      match out with
      | [] => "."
      | _ => text (rev out)
      end
  end.

(** [filepath.Dir]: [Clean] of the path up to its last separator. *)
Definition Dir (path : string) : string :=
  Clean (text (rev (snd (last_element (rev (chars path)) [])))).

End filepath.

(** ** The factories *)

(** Modelled from the spec: more constants of [sfgo] and of the engine's
    constants file that are not part of the sources at hand: the other
    record-type codes, the type tags that [mapRecType] returns, the field
    identifiers read by the factories below, and the fixed separator
    [LISTSEP] of multi-value attributes. *)
Class RecordConstants := {
  PROC : Z;
  FILE : Z;
  CONT : Z;
  FILE_FLOW : Z;
  NET_FLOW : Z;
  HEADER : Z;
  TyP : string;
  TyF : string;
  TyC : string;
  TyPE : string;
  TyFE : string;
  TyFF : string;
  TyNF : string;
  TyH : string;
  TyUnknow : string;
  EV_PROC_OPFLAGS_INT : Attribute;
  FL_FILE_ENDTS_INT : Attribute;
  FL_NETW_ENDTS_INT : Attribute;
  LISTSEP : string
}.

(** Modelled from the spec: the functions of other packages that the
    factories delegate to: [utils.GetOpFlags] (the names of the flags of an
    operation bitmask, for a record type), [utils.GetIPStr] (the text of a
    packed IP address) and the [xxhash] digest, taken with its rendering by
    [fmt.Sprintf("%x", h.Sum(nil))]: the hexadecimal text of the hash of the
    bytes written to it. *)
Class Utils := {
  GetOpFlags : Z -> string -> list string;
  GetIPStr : Z -> string;
  Sum64Hex : string -> string
}.

(** [mapEntry]. *)
Definition mapEntry (src : Source) (attr : Attribute) : FieldMap :=
  fun r =>
    if GetInt r attr src =? 1 then Ok (VBool true) else Ok (VBool false).

(** [mapName]. *)
Definition mapName (src : Source) (attr : Attribute) : FieldMap :=
  fun r => Ok (VStr (filepath.Base (GetStr r attr src))).

(** [mapDir]. *)
Definition mapDir (src : Source) (attr : Attribute) : FieldMap :=
  fun r => Ok (VStr (filepath.Dir (GetStr r attr src))).

Section MoreFactories.
Context `{Constants} `{RecordConstants} `{Utils}.

(** [mapRecType]: the first case that matches is taken. *)
Definition mapRecType (src : Source) : FieldMap :=
  fun r =>
    let t := GetInt r SF_REC_TYPE src in
    if t =? PROC then Ok (VStr TyP)
    else if t =? FILE then Ok (VStr TyF)
    else if t =? CONT then Ok (VStr TyC)
    else if t =? PROC_EVT then Ok (VStr TyPE)
    else if t =? FILE_EVT then Ok (VStr TyFE)
    else if t =? FILE_FLOW then Ok (VStr TyFF)
    else if t =? NET_FLOW then Ok (VStr TyNF)
    else if t =? HEADER then Ok (VStr TyH)
    else Ok (VStr TyUnknow).

(** [mapOpFlags]: the type assertion [.(string)] panics on a value that is
    not a string. *)
Definition mapOpFlags (src : Source) : FieldMap :=
  fun r =>
    let opflags := GetInt r EV_PROC_OPFLAGS_INT src in
    x ← mapRecType src r;
    match x with
    | VStr rtype =>
        Ok (VStr (Join (GetOpFlags (Int32.wrap opflags) rtype) LISTSEP))
    | _ => Panic
    end.

(** [mapEndTs]. *)
Definition mapEndTs (src : Source) : FieldMap :=
  fun r =>
    let t := GetInt r SF_REC_TYPE src in
    if t =? FILE_FLOW then Ok (VInt (GetInt r FL_FILE_ENDTS_INT src))
    else if t =? NET_FLOW then Ok (VInt (GetInt r FL_NETW_ENDTS_INT src))
    else Ok (VInt Zeros.Int64).

(** [mapPort]. *)
Definition mapPort (src : Source) (attrs : list Attribute) : FieldMap :=
  fun r =>
    let ports :=
      fold_left
        (fun ports attr => ports ++ [strconv.FormatInt (GetInt r attr src)])
        attrs [] in
    Ok (VStr (Join ports LISTSEP)).

(** [mapIP]. *)
Definition mapIP (src : Source) (attrs : list Attribute) : FieldMap :=
  fun r =>
    let ips :=
      fold_left
        (fun ips attr => ips ++ [GetIPStr (Int32.wrap (GetInt r attr src))])
        attrs [] in
    Ok (VStr (Join ips LISTSEP)).

(** [mapOID]: [fmt.Sprintf("%v", i)] of an [int64] is its decimal text; the
    digest is that of all the bytes written, in order. *)
Definition mapOID (src : Source) (attrs : list Attribute) : FieldMap :=
  fun r =>
    let written :=
      fold_left
        (fun written attr =>
           written +:+ strconv.FormatInt (GetInt r attr src))
        attrs "" in
    Ok (VStr (Sum64Hex written)).

End MoreFactories.

(** * Words for the properties of the other functions *)

Module Words.

(** Does the string start, or end, with a quote character? *)
Definition starts_with_quote (s : string) : bool :=
  match s with
  | String c _ => is_quote c
  | EmptyString => false
  end.

Fixpoint ends_with_quote (s : string) : bool :=
  match s with
  | EmptyString => false
  | String c EmptyString => is_quote c
  | String _ s' => ends_with_quote s'
  end.

(** A string without a path separator. *)
Fixpoint slash_free (s : string) : bool :=
  match s with
  | EmptyString => true
  | String c s' => negb (filepath.IsPathSeparator c) && slash_free s'
  end.

(** A name that can stand as one element of a clean path: not empty, without
    a separator, and neither [.] nor [..]. *)
Definition plain_element (s : string) : bool :=
  negb (String.eqb s "") && slash_free s
  && negb (String.eqb s ".") && negb (String.eqb s "..").

(** The absolute path made of the given elements: [/e1/e2/.../en]. *)
Definition absolute (elems : list string) : string :=
  foldr (fun e path => "/" +:+ e +:+ path) "" elems.

(** A word of printable ASCII: not empty, bytes below 128, no white space. *)
Fixpoint ascii_no_space (s : string) : bool :=
  match s with
  | EmptyString => true
  | String c s' =>
      (byte_val c <? 128) && negb (fmt.isSpace (byte_val c))
      && ascii_no_space s'
  end.

Definition ascii_word (s : string) : bool :=
  negb (String.eqb s "") && ascii_no_space s.

(** The decimal texts of the integer fields, one after the other. *)
Definition decimal_texts (r : Record) (src : Source) (attrs : list Attribute)
  : string :=
  foldr (fun attr text => strconv.FormatInt (GetInt r attr src) +:+ text)
        "" attrs.

(** The sum of the lengths of the string fields. *)
Definition total_length (r : Record) (src : Source) (attrs : list Attribute)
  : nat :=
  foldr (fun attr n => (String.length (GetStr r attr src) + n)%nat) O attrs.

(** The separator that [Clean] writes in front of an element: none at the
    start of the buffer, nor after the slash of a rooted path. *)
Definition with_separator (rooted : bool) (out : list ascii) : list ascii :=
  if (rooted && negb (length out =? 1)%nat)
     || (negb rooted && negb (length out =? 0)%nat)
  then filepath.Separator :: out else out.

(** The elements of a directory as [Clean] reads them after the leading
    slash: each one followed by a slash. *)
Definition elements_with_slash (elems : list string) : string :=
  foldr (fun e path => e +:+ "/" +:+ path) "" elems.

(** The buffer of [Clean] once it has written the given elements of an
    absolute path, from its end. *)
Definition written (elems : list string) : list ascii :=
  match elems with
  | [] => [filepath.Separator]
  | _ => rev (filepath.chars (absolute elems))
  end.

End Words.

(** * More sample inputs *)

Definition sample_record_constants : RecordConstants := {|
  PROC := 2; FILE := 3; CONT := 1; FILE_FLOW := 6; NET_FLOW := 5; HEADER := 0;
  TyP := "P"; TyF := "F"; TyC := "C"; TyPE := "PE"; TyFE := "FE";
  TyFF := "FF"; TyNF := "NF"; TyH := "H"; TyUnknow := "";
  EV_PROC_OPFLAGS_INT := 5; FL_FILE_ENDTS_INT := 6; FL_NETW_ENDTS_INT := 7;
  LISTSEP := ","
|}.

(** Stand-ins for the functions of the other packages: they only need to be
    functions. *)
Definition sample_utils : Utils := {|
  GetOpFlags := fun flags rtype => if Z.testbit flags 0 then [rtype] else [];
  GetIPStr := fun ip => strconv.FormatInt ip;
  Sum64Hex := fun written => written
|}.

(** A record whose integer fields are given by a function of the attribute
    and whose string fields all hold the same text. *)
Definition record_of (fields : Z -> Z) (s : string) : Record := {|
  strs := fun _ _ => s;
  ints := fun attr _ => fields attr;
  cache := fun _ _ => VOther
|}.

(** A registry with a flag attribute and a name attribute. *)
Definition sample_flag_mapper : FieldMapper := {|
  Mappers :=
    <["sf.proc.entry" := mapEntry 0 1]>
      (<["sf.proc.name" := mapName 0 2]> ∅)
|}.

(** * Properties *)

(** ** Strings *)

Lemma append_nil_l (s : string) : "" +:+ s = s.
Proof. reflexivity. Qed.

Lemma append_cons (c : ascii) (s1 s2 : string) :
  String c s1 +:+ s2 = String c (s1 +:+ s2).
Proof. reflexivity. Qed.

Lemma append_nil_r (s : string) : s +:+ "" = s.
Proof. induction s; [done|]. rewrite append_cons. by f_equal. Qed.

Lemma append_assoc (s1 s2 s3 : string) :
  (s1 +:+ s2) +:+ s3 = s1 +:+ (s2 +:+ s3).
Proof. induction s1; [done|]. rewrite !append_cons. by f_equal. Qed.

Lemma length_append (s1 s2 : string) :
  String.length (s1 +:+ s2) = (String.length s1 + String.length s2)%nat.
Proof. induction s1; [done|]. rewrite append_cons. simpl. by f_equal. Qed.

(** ** Generic resolution *)

(** C1: for a name [n] that is not a key of the mapper table, the extractor
    returned by [Map] yields [n] itself on every record; for a registered
    name, [Map] returns the registered extractor. Resolution itself signals
    no error: whatever [Map] returns for a name that is not registered
    returns normally. *)
Theorem Map_unregistered_yields_name (m : FieldMapper) (n : string) (r : Record) :
  (Mappers m !! n = None → Map m n r = Ok (VStr n)) ∧
  (∀ f, Mappers m !! n = Some f → Map m n r = f r) ∧
  (Map m n r = Panic → ∃ f, Mappers m !! n = Some f ∧ f r = Panic).
Proof.
  unfold Map. destruct (Mappers m !! n) as [f|] eqn:E.
  - split; [done|]. split; [by intros ? [= <-]|]. eauto.
  - split; [done|]. split; done.
Qed.

Lemma Map_unregistered_yields_name_witness :
  Map sample_mapper "no.such.attribute" sample_record
  = Ok (VStr "no.such.attribute").
Proof.
  apply (Map_unregistered_yields_name sample_mapper "no.such.attribute"
           sample_record).
  reflexivity.
Defined.

(** ** The protocol-name extractor *)

(** C4: the extractor registered under the protocol-name attribute returns
    the raw integer of the protocol field, exactly as the extractor
    registered under the protocol-number attribute does: no lookup table is
    consulted and the result is never a string. On the sample record (TCP,
    protocol 6) it yields the integer 6. *)
Theorem mapProto_returns_raw_number :
  (∀ `{Constants} (r : Record),
     Mapper_SF_NET_PROTONAME r
     = Ok (VInt (GetInt r FL_NETW_PROTO_INT SYSFLOW_SRC)) ∧
     Mapper_SF_NET_PROTONAME r = Mapper_SF_NET_PROTO r ∧
     ∀ name : string, Mapper_SF_NET_PROTONAME r ≠ Ok (VStr name)) ∧
  @Mapper_SF_NET_PROTONAME sample_constants sample_record = Ok (VInt 6).
Proof.
  split; [|reflexivity].
  intros C r. unfold Mapper_SF_NET_PROTONAME, Mapper_SF_NET_PROTO, mapProto, mapInt.
  split; [done|]. split; [done|]. intros name [=].
Qed.

(** ** The return-code extractor *)

(** C7: [mapRet] returns the raw return-code field when the record's type
    is the process-event or the file-event code, and zero for every other
    type. *)
Theorem mapRet_by_record_type `{Constants} (src : Source) (r : Record) :
  let t := GetInt r SF_REC_TYPE src in
  (t = PROC_EVT ∨ t = FILE_EVT →
     mapRet src r = Ok (VInt (GetInt r RET_INT src))) ∧
  (t ≠ PROC_EVT ∧ t ≠ FILE_EVT → mapRet src r = Ok (VInt 0)).
Proof.
  intros t. unfold mapRet. fold t. split.
  - intros [-> | ->]; rewrite Z.eqb_refl; [done|]. by rewrite orb_true_r.
  - intros [H1 H2].
    apply Z.eqb_neq in H1, H2. by rewrite H1, H2.
Qed.

Lemma mapRet_by_record_type_witness :
  @mapRet sample_constants 0 sample_record = Ok (VInt (-2)).
Proof.
  apply (proj1 (@mapRet_by_record_type sample_constants 0 sample_record)).
  left. reflexivity.
Defined.

(** ** The sum extractor *)

Lemma wrap_add_wrap_l (a b : Z) :
  Int64.wrap (Int64.wrap a + b) = Int64.wrap (a + b).
Proof.
  unfold Int64.wrap.
  replace ((a + 2 ^ 63) mod 2 ^ 64 - 2 ^ 63 + b + 2 ^ 63)
    with ((a + 2 ^ 63) mod 2 ^ 64 + b) by lia.
  replace (a + b + 2 ^ 63) with ((a + 2 ^ 63) + b) by lia.
  by rewrite Zplus_mod_idemp_l.
Qed.

Lemma wrap_in_range (z : Z) : Int64.in_range z → Int64.wrap z = z.
Proof.
  unfold Int64.in_range, Int64.min, Int64.max, Int64.wrap. intros Hz.
  rewrite Z.mod_small; lia.
Qed.

Lemma wrap_range (z : Z) : Int64.in_range (Int64.wrap z).
Proof.
  unfold Int64.in_range, Int64.min, Int64.max, Int64.wrap.
  pose proof (Z.mod_pos_bound (z + 2 ^ 63) (2 ^ 64)). lia.
Qed.

Lemma mapSum_loop (r : Record) (src : Source) (attrs : list Attribute) (sum : Z) :
  Int64.wrap
    (fold_left (fun sum attr => Int64.wrap (sum + GetInt r attr src)) attrs sum)
  = Int64.wrap (sum + Spec.field_sum r src attrs).
Proof.
  revert sum. induction attrs as [|a attrs IH]; intros sum; simpl.
  - by rewrite Z.add_0_r.
  - rewrite IH, wrap_add_wrap_l. f_equal. lia.
Qed.

(** C8: [mapSum] returns the sum of the record's values for the listed
    fields, in wrapping 64-bit arithmetic; for two fields it is
    [GetInt(a) + GetInt(b)], wrapped, and the exact sum whenever that lies
    in the [int64] range (as it does for zero and for operands of opposite
    sign). *)
Theorem mapSum_is_wrapped_sum (src : Source) (r : Record) :
  (∀ attrs, mapSum src attrs r
            = Ok (VInt (Int64.wrap (Spec.field_sum r src attrs)))) ∧
  (∀ a b, mapSum src [a; b] r
          = Ok (VInt (Int64.wrap (GetInt r a src + GetInt r b src)))) ∧
  (∀ a b, Int64.in_range (GetInt r a src + GetInt r b src) →
          mapSum src [a; b] r = Ok (VInt (GetInt r a src + GetInt r b src))).
Proof.
  assert (Hall : ∀ attrs, mapSum src attrs r
            = Ok (VInt (Int64.wrap (Spec.field_sum r src attrs)))).
  { intros attrs. unfold mapSum. do 2 f_equal.
    rewrite <- (Z.add_0_l (Spec.field_sum r src attrs)), <- mapSum_loop.
    symmetry. destruct attrs as [|a attrs _] using rev_ind; [done|].
    rewrite fold_left_app. simpl. apply wrap_in_range, wrap_range. }
  assert (Htwo : ∀ a b, mapSum src [a; b] r
          = Ok (VInt (Int64.wrap (GetInt r a src + GetInt r b src)))).
  { intros a b. rewrite Hall. simpl. by rewrite Z.add_0_r. }
  split; [done|]. split; [done|].
  intros a b Hr. by rewrite Htwo, wrap_in_range.
Qed.

Lemma mapSum_is_wrapped_sum_witness :
  mapSum 0 [1; 4] sample_record = Ok (VInt 4).
Proof.
  apply (proj2 (proj2 (mapSum_is_wrapped_sum 0 sample_record)) 1 4).
  vm_compute. split; discriminate.
Defined.

(** ** The join extractor *)

Lemma mapJoin_loop (r : Record) (src : Source) (attrs : list Attribute) (join : string) :
  fold_left (fun join attr => join +:+ SPACE +:+ GetStr r attr src) attrs join
  = join +:+ Spec.spaced_fields r src attrs.
Proof.
  revert join. induction attrs as [|a attrs IH]; intros join; simpl.
  - by rewrite append_nil_r.
  - rewrite IH. unfold SPACE. by rewrite !append_assoc.
Qed.

(** C9: [mapJoin] reads [attrs[0]] without a guard: on an empty list the
    extractor panics, and on a list that is not empty it returns, for every
    record, the first field's string followed by each remaining field's
    string prefixed with one space, in argument order. The registry's one
    use binds two fields and so never panics: it yields the executable, a
    space and the arguments. *)
Theorem mapJoin_total_on_nonempty (src : Source) (r : Record) :
  mapJoin src [] r = Panic ∧
  (∀ attrs, attrs ≠ [] → mapJoin src attrs r ≠ Panic) ∧
  (∀ attr0 attrs1,
     mapJoin src (attr0 :: attrs1) r
     = Ok (VStr (GetStr r attr0 src +:+ Spec.spaced_fields r src attrs1))) ∧
  (∀ `{Constants},
     Mapper_SF_PROC_CMDLINE r
     = Ok (VStr (GetStr r PROC_EXE_STR SYSFLOW_SRC +:+ " "
                 +:+ GetStr r PROC_EXEARGS_STR SYSFLOW_SRC))).
Proof.
  split; [done|]. split; [by intros [|??]|]. split.
  - intros attr0 attrs1. unfold mapJoin. by rewrite mapJoin_loop.
  - intros C. unfold Mapper_SF_PROC_CMDLINE, mapJoin.
    rewrite mapJoin_loop. simpl. by rewrite append_nil_r.
Qed.

Lemma mapJoin_total_on_nonempty_witness :
  mapJoin 0 [2; 3] sample_record ≠ Panic.
Proof.
  apply (proj1 (proj2 (mapJoin_total_on_nonempty 0 sample_record)) [2; 3]).
  discriminate.
Defined.

(** ** Quote trimming *)

Lemma substring_whole (s : string) :
  String.substring 0 (String.length s) s = s.
Proof. induction s; simpl; by f_equal. Qed.

Lemma trim_leading_step (s : string) :
  (if (0 <? String.length s)%nat && from_option is_quote false (index s 0)
   then String.substring 1 (String.length s - 1) s else s)
  = Spec.strip_leading_quote s.
Proof.
  destruct s as [|c s]; [done|]. simpl.
  destruct (is_quote c); [|done].
  by rewrite Nat.sub_0_r, substring_whole.
Qed.

Lemma trim_trailing_step (s : string) :
  (if (0 <? String.length s)%nat
      && from_option is_quote false (index s (String.length s - 1))
   then String.substring 0 (String.length s - 1) s else s)
  = Spec.strip_trailing_quote s.
Proof.
  induction s as [|c s IH]; [done|].
  destruct s as [|c' s]; [simpl; by destruct (is_quote c)|].
  revert IH. unfold index.
  change (String.length (String c (String c' s))) with (S (S (String.length s))).
  change (String.length (String c' s)) with (S (String.length s)).
  replace (S (S (String.length s)) - 1)%nat with (S (String.length s)) by lia.
  replace (S (String.length s) - 1)%nat with (String.length s) by lia.
  change (Spec.strip_trailing_quote (String c (String c' s)))
    with (String c (Spec.strip_trailing_quote (String c' s))).
  change (String.get (S (String.length s)) (String c (String c' s)))
    with (String.get (String.length s) (String c' s)).
  change (String.substring 0 (S (String.length s)) (String c (String c' s)))
    with (String c (String.substring 0 (String.length s) (String c' s))).
  change (0 <? S (S (String.length s)))%nat with true.
  change (0 <? S (String.length s))%nat with true.
  intros <-. simpl.
  by destruct (from_option is_quote false _).
Qed.

Lemma trimBoundingQuotes_strips (s : string) :
  trimBoundingQuotes s
  = Spec.strip_trailing_quote (Spec.strip_leading_quote s).
Proof.
  unfold trimBoundingQuotes. cbv zeta.
  by rewrite trim_leading_step, trim_trailing_step.
Qed.

Lemma strip_leading_quote_split (s : string) :
  ∃ pre, s = pre +:+ Spec.strip_leading_quote s ∧
         (pre = "" ∨ ∃ c, is_quote c = true ∧ pre = String c "").
Proof.
  destruct s as [|c s]; [exists ""; auto|]. simpl.
  destruct (is_quote c) eqn:Hc.
  - exists (String c ""). split; [done|]. right. eauto.
  - exists "". auto.
Qed.

Lemma strip_trailing_quote_split (s : string) :
  ∃ post, s = Spec.strip_trailing_quote s +:+ post ∧
          (post = "" ∨ ∃ c, is_quote c = true ∧ post = String c "").
Proof.
  induction s as [|c s IH]; [exists ""; auto|].
  destruct s as [|c' s].
  - simpl. destruct (is_quote c) eqn:Hc.
    + exists (String c ""). split; [done|]. right. eauto.
    + exists "". auto.
  - destruct IH as (post & Heq & Hpost). exists post. split; [|done].
    change (Spec.strip_trailing_quote (String c (String c' s)))
      with (String c (Spec.strip_trailing_quote (String c' s))).
    rewrite append_cons. by f_equal.
Qed.

(** C10: [trimBoundingQuotes] looks for a leading quote in the original
    string and then for a trailing quote in what is left, when that is not
    empty: the result is the string without at most one quote character at
    either end, no character is removed twice, a string that is one quote
    character becomes the empty string, and at most two characters are
    lost. *)
Theorem trimBoundingQuotes_bounds (s : string) :
  trimBoundingQuotes s
  = Spec.strip_trailing_quote (Spec.strip_leading_quote s) ∧
  (∃ pre post,
     s = pre +:+ trimBoundingQuotes s +:+ post ∧
     (pre = "" ∨ ∃ c, is_quote c = true ∧ pre = String c "") ∧
     (post = "" ∨ ∃ c, is_quote c = true ∧ post = String c "")) ∧
  (String.length s - 2 ≤ String.length (trimBoundingQuotes s) ≤ String.length s)%nat ∧
  trimBoundingQuotes (String dquote "") = "" ∧
  trimBoundingQuotes "'" = "".
Proof.
  assert (Hsplit : ∃ pre post,
     s = pre +:+ trimBoundingQuotes s +:+ post ∧
     (pre = "" ∨ ∃ c, is_quote c = true ∧ pre = String c "") ∧
     (post = "" ∨ ∃ c, is_quote c = true ∧ post = String c "")).
  { rewrite trimBoundingQuotes_strips.
    destruct (strip_leading_quote_split s) as (pre & Hs & Hpre).
    destruct (strip_trailing_quote_split (Spec.strip_leading_quote s))
      as (post & Hs' & Hpost).
    exists pre, post. split; [|done]. by rewrite <- Hs'. }
  split; [apply trimBoundingQuotes_strips|]. split; [done|].
  split; [|done].
  destruct Hsplit as (pre & post & Hs & Hpre & Hpost).
  apply (f_equal String.length) in Hs. rewrite !length_append in Hs.
  destruct Hpre as [-> | (c & _ & ->)], Hpost as [-> | (c' & _ & ->)];
    simpl in Hs; lia.
Qed.

(** ** Parsing and formatting integers *)

Ltac each_byte c := destruct c as [[] [] [] [] [] [] [] []].

Lemma digit_of_spec (c : ascii) : strconv.digit_of c = Spec.digit c.
Proof. each_byte c; reflexivity. Qed.

Lemma digit_range (c : ascii) (d : Z) : Spec.digit c = Some d → 0 <= d <= 35.
Proof. each_byte c; vm_compute; intros [= <-]; split; discriminate. Qed.

Lemma digits_value_ge (base : Z) (s : string) (n v : Z) :
  1 <= base → 0 <= n → Spec.digits_value base n s = Some v → n <= v.
Proof.
  intros Hb. revert n. induction s as [|c s IH]; intros n Hn; simpl.
  - intros [= <-]. lia.
  - destruct (Spec.digit c) as [d|] eqn:Hd; [|done]. simpl.
    apply digit_range in Hd. destruct (d <? base); [|done].
    intros Hv. apply IH in Hv; nia.
Qed.

Lemma digits_value_app (base : Z) (s1 s2 : string) (n : Z) :
  Spec.digits_value base n (s1 +:+ s2)
  = Spec.digits_value base n s1 ≫= λ v, Spec.digits_value base v s2.
Proof.
  revert n. induction s1 as [|c s1 IH]; intros n; [done|].
  rewrite append_cons. simpl.
  destruct (Spec.digit c) as [d|]; [|done]. simpl.
  destruct (d <? base); [apply IH|done].
Qed.

Lemma ParseUint_loop_spec (base maxVal : Z) (s : string) (n : Z) :
  2 <= base <= 36 → maxVal <= Uint64.max → 0 <= n <= maxVal →
  match Spec.digits_value base n s with
  | Some v =>
      strconv.ParseUint_loop base maxVal (Uint64.max / base + 1) s n
      = if v <=? maxVal then (v, None) else (maxVal, Some strconv.ErrRange)
  | None =>
      uint_error maxVal
        (strconv.ParseUint_loop base maxVal (Uint64.max / base + 1) s n)
  end.
Proof.
  intros Hb Hmax.
  set (cutoff := Uint64.max / base + 1).
  assert (Hcut : ∀ k, 0 <= k →
            (cutoff <= k → 2 ^ 64 <= k * base) ∧
            (k < cutoff → k * base < 2 ^ 64)).
  { intros k Hk.
    pose proof (Z.mul_div_le Uint64.max base ltac:(lia)) as Hlo.
    pose proof (Z.mul_succ_div_gt Uint64.max base ltac:(lia)) as Hhi.
    subst cutoff. revert Hlo Hhi. generalize (Uint64.max / base).
    unfold Uint64.max. intros q ??. split; intros ?; nia. }
  clearbody cutoff. unfold Uint64.max in Hmax.
  revert n. induction s as [|c s IH]; intros n Hn.
  { simpl. destruct (Z.leb_spec n maxVal); [done|lia]. }
  simpl. rewrite digit_of_spec.
  destruct (Spec.digit c) as [d|] eqn:Hd; simpl; [|by left].
  apply digit_range in Hd.
  rewrite Z.geb_leb. destruct (Z.leb_spec base d) as [Hdb|Hdb].
  { destruct (Z.ltb_spec d base); [lia|]. by left. }
  destruct (Z.ltb_spec d base) as [_|]; [|lia].
  assert (Hover : maxVal < n * base + d →
    match Spec.digits_value base (n * base + d) s with
    | Some v => (maxVal, Some strconv.ErrRange)
                = if v <=? maxVal then (v, None)
                  else (maxVal, Some strconv.ErrRange)
    | None => uint_error maxVal (maxVal, Some strconv.ErrRange)
    end).
  { intros H1.
    destruct (Spec.digits_value base (n * base + d) s) as [v|] eqn:Hv;
      [|by right].
    apply digits_value_ge in Hv; [|lia|nia].
    destruct (Z.leb_spec v maxVal); [lia|done]. }
  destruct (Hcut n ltac:(lia)) as [Hge Hlt].
  rewrite Z.geb_leb. destruct (Z.leb_spec cutoff n) as [Hc|Hc].
  { apply Hover. specialize (Hge Hc). lia. }
  specialize (Hlt Hc). unfold Uint64.wrap.
  rewrite (Z.mod_small (n * base)) by nia.
  destruct (Z_lt_le_dec (n * base + d) (2 ^ 64)) as [Hs|Hs].
  - rewrite (Z.mod_small (n * base + d)) by nia.
    destruct (Z.ltb_spec (n * base + d) (n * base)); [lia|]. simpl.
    rewrite Z.gtb_ltb.
    destruct (Z.ltb_spec maxVal (n * base + d)) as [Hm|Hm].
    + by apply Hover.
    + apply IH. nia.
  - assert ((n * base + d) mod 2 ^ 64 = n * base + d - 2 ^ 64) as ->.
    { symmetry. apply (Z.mod_unique _ _ 1); lia. }
    destruct (Z.ltb_spec (n * base + d - 2 ^ 64) (n * base)); [|lia]. simpl.
    apply Hover. lia.
Qed.

Lemma ParseUint_spec (base : Z) (s : string) :
  2 <= base <= 36 →
  match Spec.numeral base s with
  | Some v =>
      strconv.ParseUint s base 64
      = if v <=? Uint64.max then (v, None)
        else (Uint64.max, Some strconv.ErrRange)
  | None => uint_error Uint64.max (strconv.ParseUint s base 64)
  end.
Proof.
  intros Hb. destruct s as [|c s]; [by left|].
  unfold Spec.numeral, strconv.ParseUint.
  destruct (Z.leb_spec 2 base); [|lia].
  destruct (Z.leb_spec base 36); [|lia]. cbn [andb negb].
  change (negb ((1 <=? 64) && (64 <=? 64))) with false. cbv iota.
  change (2 ^ 64 - 1) with Uint64.max.
  apply ParseUint_loop_spec; [done|done|]. unfold Uint64.max. lia.
Qed.

Lemma decimal_literal_unfold (c : ascii) (s : string) :
  Spec.decimal_literal (String c s)
  = if Ascii.eqb c "+" then Spec.numeral 10 s
    else if Ascii.eqb c "-" then Z.opp <$> Spec.numeral 10 s
    else Spec.numeral 10 (String c s).
Proof. each_byte c; reflexivity. Qed.

Lemma ParseInt_signed (neg : bool) (un : Z) (e : option strconv.NumError) :
  0 <= un →
  (e = None ∨ (e = Some strconv.ErrRange ∧ un = Uint64.max)) →
  (if negb neg && (un >=? 2 ^ (64 - 1))
   then (2 ^ (64 - 1) - 1, Some strconv.ErrRange)
   else if neg && (un >? 2 ^ (64 - 1))
        then (- 2 ^ (64 - 1), Some strconv.ErrRange)
        else (if neg then - un else un, None))
  = let v := if neg then - un else un in
    if (Int64.min <=? v) && (v <=? Int64.max) && bool_decide (e = None)
    then (v, None)
    else (if neg then Int64.min else Int64.max, Some strconv.ErrRange).
Proof.
  intros Hun He. cbv zeta.
  change (2 ^ (64 - 1)) with (2 ^ 63).
  unfold Int64.min, Int64.max, Uint64.max in *.
  rewrite Z.geb_leb, Z.gtb_ltb.
  destruct neg; cbn [negb andb].
  - destruct (Z.ltb_spec (2 ^ 63) un), (Z.leb_spec (- 2 ^ 63) (- un)),
      (Z.leb_spec (- un) (2 ^ 63 - 1)); try lia; cbn [andb]; try done.
    destruct He as [-> | [-> ->]]; [done|lia].
  - destruct (Z.leb_spec (2 ^ 63) un), (Z.leb_spec (- 2 ^ 63) un),
      (Z.leb_spec un (2 ^ 63 - 1)); try lia; cbn [andb]; try done.
    destruct He as [-> | [-> ->]]; [done|lia].
Qed.

Lemma ParseInt_int64_literal (s : string) :
  match Spec.int64_literal s with
  | Some v => strconv.ParseInt s 10 64 = (v, None)
  | None => ∃ v e, strconv.ParseInt s 10 64 = (v, Some e)
  end.
Proof.
  destruct s as [|c s]; [cbn; by exists 0, strconv.ErrSyntax|].
  unfold Spec.int64_literal. rewrite decimal_literal_unfold.
  unfold strconv.ParseInt.
  set (sd := if Ascii.eqb c "+" then (false, s)
             else if Ascii.eqb c "-" then (true, s)
             else (false, String c s)).
  assert ((if Ascii.eqb c "+" then Spec.numeral 10 s
           else if Ascii.eqb c "-" then Z.opp <$> Spec.numeral 10 s
           else Spec.numeral 10 (String c s))
          = (λ un, if sd.1 then - un else un) <$> Spec.numeral 10 sd.2) as ->.
  { subst sd. destruct (Ascii.eqb c "+"); [|destruct (Ascii.eqb c "-")];
      cbn [fst snd];
      [by destruct (Spec.numeral 10 s) | done
      | by destruct (Spec.numeral 10 (String c s))]. }
  destruct sd as [neg digits]. cbn [fst snd].
  pose proof (ParseUint_spec 10 digits ltac:(lia)) as HU.
  destruct (Spec.numeral 10 digits) as [un|] eqn:Hnum; cbn [fmap option_fmap option_map mbind option_bind].
  - assert (0 <= un) as Hun.
    { destruct digits; [done|]. by apply digits_value_ge in Hnum. }
    rewrite HU. destruct (Z.leb_spec un Uint64.max) as [Hle|Hgt].
    + cbv iota beta. cbn [fst].
      rewrite (ParseInt_signed neg un None Hun) by auto. cbv zeta.
      rewrite bool_decide_eq_true_2, andb_true_r by done.
      destruct (_ && _); [done|]. eauto.
    + cbv iota beta. cbn [fst].
      rewrite (ParseInt_signed neg _ (Some strconv.ErrRange)) by
        (unfold Uint64.max; auto with lia).
      cbv zeta. rewrite bool_decide_eq_false_2, andb_false_r by done.
      unfold Int64.min, Int64.max, Uint64.max in *.
      destruct neg.
      * destruct (Z.leb_spec (- 2 ^ 63) (- un)); [lia|].
        cbn [andb]. eauto.
      * destruct (Z.leb_spec un (2 ^ 63 - 1)); [lia|].
        rewrite andb_false_r. eauto.
  - destruct HU as [-> | ->]; [by eauto|].
    cbv iota beta. cbn [fst].
    rewrite (ParseInt_signed neg _ (Some strconv.ErrRange)) by
      (unfold Uint64.max; auto with lia).
    cbv zeta. rewrite bool_decide_eq_false_2, andb_false_r by done. eauto.
Qed.

Lemma digit_char_value (k : Z) :
  0 <= k <= 9 → Spec.digit (strconv.digit_char k) = Some k.
Proof.
  intros Hk.
  assert (k = 0 ∨ k = 1 ∨ k = 2 ∨ k = 3 ∨ k = 4 ∨ k = 5 ∨ k = 6 ∨ k = 7
          ∨ k = 8 ∨ k = 9) as Hcases by lia.
  repeat destruct Hcases as [-> | Hcases]; try subst k; reflexivity.
Qed.

Lemma digit_char_nonzero (k : Z) :
  1 <= k <= 9 → Ascii.eqb (strconv.digit_char k) "0" = false.
Proof.
  intros Hk.
  assert (k = 1 ∨ k = 2 ∨ k = 3 ∨ k = 4 ∨ k = 5 ∨ k = 6 ∨ k = 7
          ∨ k = 8 ∨ k = 9) as Hcases by lia.
  repeat destruct Hcases as [-> | Hcases]; try subst k; reflexivity.
Qed.

Lemma digit_char_not_sign (k : Z) :
  0 <= k <= 9 →
  Ascii.eqb (strconv.digit_char k) "+" = false ∧
  Ascii.eqb (strconv.digit_char k) "-" = false.
Proof.
  intros Hk.
  assert (k = 0 ∨ k = 1 ∨ k = 2 ∨ k = 3 ∨ k = 4 ∨ k = 5 ∨ k = 6 ∨ k = 7
          ∨ k = 8 ∨ k = 9) as Hcases by lia.
  repeat destruct Hcases as [-> | Hcases]; try subst k; split; reflexivity.
Qed.

Lemma digits_value_digit_char (k n : Z) (s : string) :
  0 <= k <= 9 →
  Spec.digits_value 10 n (String (strconv.digit_char k) s)
  = Spec.digits_value 10 (n * 10 + k) s.
Proof.
  intros Hk. simpl. rewrite digit_char_value by done. simpl.
  destruct (Z.ltb_spec k 10); [done|lia].
Qed.

Lemma formatBits_loop_one_digit (fuel : nat) (u : Z) (acc : string) :
  0 <= u < 10 →
  ∃ k ds,
    strconv.formatBits_loop (S fuel) u acc
    = String (strconv.digit_char k) ds +:+ acc ∧
    Spec.digits_value 10 0 (String (strconv.digit_char k) ds) = Some u ∧
    0 <= k <= 9 ∧
    (k = 0 → u = 0 ∧ ds = "").
Proof.
  intros Hu. exists u, "".
  cbn [strconv.formatBits_loop]. destruct (Z.ltb_spec u 10); [|lia].
  split; [done|]. rewrite digits_value_digit_char by lia.
  split; [simpl; f_equal; lia|]. split; [lia|auto].
Qed.

(** What [formatBits] writes in front of [acc]: the digits of [u], the
    first of which is zero only when [u] is. *)
Lemma formatBits_loop_spec (fuel : nat) (u : Z) (acc : string) :
  0 <= u < 10 ^ Z.of_nat (S fuel) →
  ∃ k ds,
    strconv.formatBits_loop (S fuel) u acc
    = String (strconv.digit_char k) ds +:+ acc ∧
    Spec.digits_value 10 0 (String (strconv.digit_char k) ds) = Some u ∧
    0 <= k <= 9 ∧
    (k = 0 → u = 0 ∧ ds = "").
Proof.
  revert u acc. induction fuel as [|fuel IH]; intros u acc Hu.
  { apply formatBits_loop_one_digit. simpl in Hu. lia. }
  destruct (Z.ltb_spec u 10) as [Hlt|Hge];
    [apply formatBits_loop_one_digit; lia|].
  cbn [strconv.formatBits_loop] in *.
  destruct (Z.ltb_spec u 10) as [|_]; [lia|].
  destruct (IH (u / 10) (String (strconv.digit_char (u mod 10)) acc))
    as (k & ds & Heq & Hval & Hk & Hzero).
  { rewrite Nat2Z.inj_succ, Z.pow_succ_r in Hu by lia.
    split; [apply Z.div_pos; lia|]. apply Z.div_lt_upper_bound; lia. }
  exists k, (ds +:+ String (strconv.digit_char (u mod 10)) "").
  split_and!.
  - by rewrite Heq, <- append_cons, append_assoc.
  - rewrite <- append_cons, digits_value_app, Hval.
    pose proof (Z.mod_pos_bound u 10 ltac:(lia)).
    cbn [mbind option_bind]. rewrite digits_value_digit_char by lia.
    simpl. f_equal. pose proof (Z.div_mod u 10 ltac:(lia)). lia.
  - lia.
  - lia.
  - intros Hk0. destruct (Hzero Hk0) as [Hdiv _].
    apply Z.div_small_iff in Hdiv; lia.
Qed.

Lemma FormatInt_spec (i : Z) :
  Int64.in_range i →
  Spec.int64_literal (strconv.FormatInt i) = Some i ∧
  Spec.canonical_decimal (strconv.FormatInt i) = true.
Proof.
  unfold Int64.in_range, Int64.min, Int64.max. intros Hi.
  unfold strconv.FormatInt. cbv zeta.
  destruct (Z.ltb_spec i 0) as [Hneg|Hpos].
  - assert (Uint64.wrap (- Uint64.wrap i) = - i) as ->.
    { unfold Uint64.wrap.
      rewrite <- (Z.mod_unique i (2 ^ 64) (-1) (i + 2 ^ 64)) by lia.
      symmetry. apply (Z.mod_unique _ _ (-1)); lia. }
    destruct (formatBits_loop_spec 19 (- i) "") as (k & ds & -> & Hval & Hk & Hz);
      [lia|].
    rewrite append_nil_r. unfold Spec.int64_literal.
    rewrite decimal_literal_unfold.
    change (Ascii.eqb "-" "+") with false. change (Ascii.eqb "-" "-") with true.
    cbv iota. unfold Spec.numeral. rewrite Hval.
    cbn [fmap option_fmap option_map mbind option_bind].
    rewrite Z.opp_involutive. unfold Int64.min, Int64.max.
    destruct (Z.leb_spec (- 2 ^ 63) i); [|lia].
    destruct (Z.leb_spec i (2 ^ 63 - 1)); [|lia].
    split; [done|].
    assert (k ≠ 0) by (intros Hk0; apply Hz in Hk0; lia).
    change (Spec.canonical_decimal (String "-" (String (strconv.digit_char k) ds)))
      with (Spec.canonical_digits (String (strconv.digit_char k) ds)
            && negb (String.eqb (String (strconv.digit_char k) ds) "0")).
    assert (Ascii.eqb (strconv.digit_char k) "0" = false) as Hnz
      by (apply digit_char_nonzero; lia).
    apply andb_true_intro. split.
    + unfold Spec.canonical_digits.
      destruct (strconv.digit_char k) as [[] [] [] [] [] [] [] []]; try done.
    + simpl. by rewrite Hnz.
  - assert (Uint64.wrap i = i) as ->.
    { unfold Uint64.wrap. apply Z.mod_small. lia. }
    destruct (formatBits_loop_spec 19 i "") as (k & ds & -> & Hval & Hk & Hz);
      [lia|].
    rewrite append_nil_r. unfold Spec.int64_literal.
    rewrite decimal_literal_unfold.
    destruct (digit_char_not_sign k Hk) as [-> ->].
    unfold Spec.numeral. rewrite Hval.
    cbn [mbind option_bind]. unfold Int64.min, Int64.max.
    destruct (Z.leb_spec (- 2 ^ 63) i); [|lia].
    destruct (Z.leb_spec i (2 ^ 63 - 1)); [|lia].
    split; [done|].
    destruct (decide (k = 0)) as [Hk0|Hk0].
    + destruct (Hz Hk0) as [_ ->]. by subst k.
    + assert (Ascii.eqb (strconv.digit_char k) "0" = false) as Hnz
        by (apply digit_char_nonzero; lia).
      destruct (digit_char_not_sign k Hk) as [Hp Hm].
      revert Hnz Hp Hm.
      destruct (strconv.digit_char k) as [[] [] [] [] [] [] [] []]; try done.
Qed.

(** ** Integer and string resolution *)

(** C2: when the generic extractor yields an integer, [MapInt] returns it;
    otherwise it returns the value of the attribute name when the name is
    a 64-bit signed decimal literal, and zero when it is not. [MapInt]
    returns normally whenever the generic extractor does. *)
Theorem MapInt_coercion (m : FieldMapper) (n : string) (r : Record) (v : Value) :
  Map m n r = Ok v →
  MapInt m n r
  = Ok (match v with
        | VInt i => i
        | _ => default 0 (Spec.int64_literal n)
        end).
Proof.
  intros Hv. unfold MapInt. rewrite Hv. cbn [mbind result_bind].
  assert (match strconv.ParseInt n 10 64 with
          | (i, None) => Ok i
          | (_, Some _) => Ok Zeros.Int64
          end = Ok (default 0 (Spec.int64_literal n))) as Hparse.
  { pose proof (ParseInt_int64_literal n) as Hn.
    destruct (Spec.int64_literal n) as [i|].
    - by rewrite Hn.
    - by destruct Hn as (i & e & ->). }
  by destruct v.
Qed.

Lemma MapInt_coercion_witness :
  MapInt sample_mapper "-42" sample_record = Ok (-42).
Proof.
  apply (MapInt_coercion sample_mapper "-42" sample_record (VStr "-42")).
  reflexivity.
Defined.

(** C3: [MapStr] returns, for a string, the string with at most one leading
    and at most one trailing quote character removed (the two need not
    match); for an integer, its decimal formatting (the canonical decimal
    literal that denotes it); for a boolean, "true" or "false"; for
    anything else, the empty string. *)
Theorem MapStr_coercion (m : FieldMapper) (attr : string) (r : Record) (v : Value) :
  Map m attr r = Ok v →
  match v with
  | VStr s =>
      MapStr m attr r
      = Ok (Spec.strip_trailing_quote (Spec.strip_leading_quote s))
  | VInt i =>
      MapStr m attr r = Ok (strconv.FormatInt i) ∧
      (Int64.in_range i →
       Spec.int64_literal (strconv.FormatInt i) = Some i ∧
       Spec.canonical_decimal (strconv.FormatInt i) = true)
  | VBool b => MapStr m attr r = Ok (if b then "true" else "false")
  | VOther => MapStr m attr r = Ok ""
  end.
Proof.
  intros Hv. unfold MapStr. rewrite Hv. cbn [mbind result_bind].
  destruct v as [i|s|b|]; [|by rewrite trimBoundingQuotes_strips|done..].
  split; [done|]. apply FormatInt_spec.
Qed.

Lemma MapStr_coercion_witness :
  MapStr sample_mapper ("'quoted" +:+ String dquote "") sample_record
  = Ok "quoted".
Proof.
  apply (MapStr_coercion sample_mapper ("'quoted" +:+ String dquote "")
           sample_record (VStr ("'quoted" +:+ String dquote ""))).
  reflexivity.
Defined.

(** ** Sorting *)

Section SliceStable_correct.
Context {A : Type} (less : A → A → bool).


Hypothesis less_asym : ∀ x y, less x y = true → less y x = false.
Hypothesis not_after_trans : ∀ x y z,
  (Spec.not_after less) x y → (Spec.not_after less) y z → (Spec.not_after less) x z.

Lemma sift_Permutation (x : A) (before : list A) :
  sort.sift less x before ≡ₚ x :: before.
Proof.
  induction before as [|y before IH]; simpl; [done|].
  destruct (less x y); [|done]. rewrite IH. apply Permutation_swap.
Qed.

Lemma sift_sorted (x : A) (before : list A) :
  StronglySorted (flip (Spec.not_after less)) before →
  StronglySorted (flip (Spec.not_after less)) (sort.sift less x before).
Proof.
  induction 1 as [|y before Hsorted IH Hall]; simpl.
  { repeat constructor. }
  destruct (less x y) eqn:Hxy.
  - constructor; [done|].
    rewrite sift_Permutation. constructor; [|done].
    by apply less_asym.
  - constructor; [by constructor|]. constructor; [done|].
    eapply Forall_impl; [done|]. intros z Hz. unfold flip in *.
    by apply (not_after_trans z y x).
Qed.

Lemma insertion_loop_Permutation (data before : list A) :
  fold_left (λ before x, sort.sift less x before) data before
  ≡ₚ data ++ before.
Proof.
  revert before. induction data as [|x data IH]; intros before; simpl; [done|].
  by rewrite IH, sift_Permutation, Permutation_middle.
Qed.

Lemma insertion_loop_sorted (data before : list A) :
  StronglySorted (flip (Spec.not_after less)) before →
  StronglySorted (flip (Spec.not_after less))
    (fold_left (λ before x, sort.sift less x before) data before).
Proof.
  revert before. induction data as [|x data IH]; intros before Hb; simpl;
    [done|].
  by apply IH, sift_sorted.
Qed.

Lemma StronglySorted_rev (l : list A) :
  StronglySorted (flip (Spec.not_after less)) l → StronglySorted (Spec.not_after less) (rev l).
Proof.
  induction 1 as [|y l Hsorted IH Hall]; simpl; [constructor|].
  apply StronglySorted_app_2; [|done|repeat constructor].
  intros x1 x2 Hx1 ->%list_elem_of_singleton.
  rewrite Forall_forall in Hall. apply Hall.
  rewrite rev_alt in Hx1. apply elem_of_reverse. exact Hx1.
Qed.

Lemma SliceStable_sorted (data : list A) :
  StronglySorted (Spec.not_after less) (sort.SliceStable less data).
Proof.
  apply StronglySorted_rev, insertion_loop_sorted. constructor.
Qed.

Lemma SliceStable_Permutation (data : list A) :
  sort.SliceStable less data ≡ₚ data.
Proof.
  unfold sort.SliceStable.
  by rewrite <- Permutation_rev, insertion_loop_Permutation, app_nil_r.
Qed.

End SliceStable_correct.

Lemma Split_length (k : string) :
  length (strings.Split k ".") = Spec.segments k.
Proof.
  unfold Spec.segments. induction k as [|c k IH]; [done|]. simpl.
  destruct (Ascii.eqb c "."); simpl; [by f_equal|].
  by destruct (strings.Split k ".").
Qed.

Lemma fields_less_unfold (a b : string) :
  fields_less a b
  = match Nat.compare (Spec.segments a) (Spec.segments b) with
    | Lt => true
    | Eq => match String.compare a b with Lt => true | _ => false end
    | Gt => false
    end.
Proof.
  unfold fields_less, strings.Compare. rewrite !Split_length. cbv zeta.
  destruct (Nat.compare_spec (Spec.segments a) (Spec.segments b)) as [->|Hlt|Hgt].
  - rewrite Z.eqb_refl. by destruct (String.compare a b).
  - destruct (Z.eqb_spec (Z.of_nat (Spec.segments a)) (Z.of_nat (Spec.segments b)));
      [lia|]. apply Z.ltb_lt. lia.
  - destruct (Z.eqb_spec (Z.of_nat (Spec.segments a)) (Z.of_nat (Spec.segments b)));
      [lia|]. apply Z.ltb_ge. lia.
Qed.

(** [a] is not after [b] for the comparison of [getFields] exactly when
    [a] is before or equal to [b] in the order of the specification. *)
Lemma fields_not_after (a b : string) :
  Spec.not_after fields_less a b ↔ Spec.fields_le a b.
Proof.
  unfold Spec.not_after, Spec.fields_le, String.le, String.leb.
  rewrite fields_less_unfold, String.compare_antisym, Nat.compare_antisym.
  destruct (Nat.compare_spec (Spec.segments a) (Spec.segments b)) as [Heq|Hlt|Hgt];
    simpl.
  - destruct (String.compare a b); simpl.
    + split; [intros _; by right|done].
    + split; [intros _; by right|done].
    + split; [done|]. intros [?|[_ []]]. lia.
  - split; [intros _; by left|done].
  - split; [done|]. intros [?|[? _]]; lia.
Qed.

Lemma fields_le_trans : Transitive Spec.fields_le.
Proof.
  intros a b c [Hab|[Hab Hab']] [Hbc|[Hbc Hbc']]; unfold Spec.fields_le.
  - left. lia.
  - left. lia.
  - left. lia.
  - right. split; [lia|]. by etrans.
Qed.

Lemma fields_le_antisym : AntiSymm (=) Spec.fields_le.
Proof.
  intros a b [Hab|[Hab Hab']] [Hba|[Hba Hba']]; try lia.
  by apply (anti_symm String.le).
Qed.

Lemma fields_less_asym (a b : string) :
  fields_less a b = true → fields_less b a = false.
Proof.
  rewrite !fields_less_unfold, (String.compare_antisym a b),
    (Nat.compare_antisym (Spec.segments b) (Spec.segments a)).
  destruct (Nat.compare (Spec.segments b) (Spec.segments a)); simpl; try done.
  by destruct (String.compare b a).
Qed.

Lemma getFields_sorted (keys : list string) :
  StronglySorted Spec.fields_le (getFields keys).
Proof.
  assert (StronglySorted (Spec.not_after fields_less) (getFields keys)) as Hs.
  { apply SliceStable_sorted; [apply fields_less_asym|].
    intros x y z. rewrite !fields_not_after. apply fields_le_trans. }
  induction Hs as [|k l _ IH Hall]; constructor; [done|].
  eapply Forall_impl; [done|]. intros x. by rewrite fields_not_after.
Qed.

Lemma getFields_Permutation (keys : list string) : getFields keys ≡ₚ keys.
Proof. apply SliceStable_Permutation. Qed.

Lemma getFields_order_independent (keys keys' : list string) :
  keys ≡ₚ keys' → getFields keys = getFields keys'.
Proof.
  intros Hp. pose proof fields_le_antisym.
  apply (StronglySorted_unique Spec.fields_le);
    [apply getFields_sorted..|].
  by rewrite !getFields_Permutation.
Qed.

(** C5: whatever the order in which the keys of the registry are visited,
    [getFields] returns every registered name exactly once, sorted by
    ascending number of dot-separated segments and, among names with as
    many segments, in ascending lexicographic order; the result does not
    depend on the order of the visit, and is the only sorted arrangement of
    the names (so that any correct sort returns it). The names "ts", "proc.pid",
    "proc.name" and "a" come out as "a", "ts", "proc.name", "proc.pid". *)
Theorem getFields_sorted_enumeration {V} (m : gmap string V) (keys : list string) :
  range_keys m keys →
  (NoDup (getFields keys) ∧
   (∀ k, k ∈ getFields keys ↔ is_Some (m !! k)) ∧
   StronglySorted Spec.fields_le (getFields keys) ∧
   (∀ keys', range_keys m keys' → getFields keys' = getFields keys) ∧
   (∀ fields, range_keys m fields → StronglySorted Spec.fields_le fields →
              fields = getFields keys)) ∧
  (∀ four, four ≡ₚ ["ts"; "proc.pid"; "proc.name"; "a"] →
     getFields four = ["a"; "ts"; "proc.name"; "proc.pid"]).
Proof.
  unfold range_keys. intros Hkeys. split; [split_and!|].
  - rewrite getFields_Permutation, Hkeys. apply NoDup_fst_map_to_list.
  - intros k. rewrite getFields_Permutation, Hkeys, list_elem_of_fmap.
    split.
    + intros [[k' v] [-> Hkv]]. apply elem_of_map_to_list in Hkv. eauto.
    + intros [v Hv]. exists (k, v). split; [done|].
      by apply elem_of_map_to_list.
  - apply getFields_sorted.
  - intros keys' Hkeys'. apply getFields_order_independent.
    by rewrite Hkeys, Hkeys'.
  - intros fields Hfields Hsorted. pose proof fields_le_antisym.
    apply (StronglySorted_unique Spec.fields_le);
      [done|apply getFields_sorted|].
    by rewrite getFields_Permutation, Hkeys, Hfields.
  - intros four Hfour. by rewrite (getFields_order_independent _ _ Hfour).
Qed.


Lemma getFields_sorted_enumeration_witness :
  StronglySorted Spec.fields_le
    (getFields (map_to_list (Mappers sample_mapper)).*1).
Proof.
  refine (proj1 (proj2 (proj2 (proj1
    (getFields_sorted_enumeration (Mappers sample_mapper)
       (map_to_list (Mappers sample_mapper)).*1 _))))).
  unfold range_keys. reflexivity.
Defined.

(** ** Scanning *)

Lemma runes_cons_ascii (c : ascii) (s : string) :
  byte_val c < 128 → utf8.runes (String c s) = byte_val c :: utf8.runes s.
Proof.
  intros Hc. cbn [utf8.runes]. unfold utf8.first.
  by destruct (Z.ltb_spec (byte_val c) 128); [|lia].
Qed.

Lemma EncodeRune_ascii (c : ascii) :
  byte_val c < 128 → utf8.EncodeRune (byte_val c) = String c "".
Proof. each_byte c; vm_compute; first [done | intros [=]]. Qed.

Lemma encode_cons_ascii (c : ascii) (rs : list Z) :
  byte_val c < 128 →
  utf8.encode (byte_val c :: rs) = String c (utf8.encode rs).
Proof.
  intros Hc. cbn [utf8.encode foldr fold_right].
  by rewrite EncodeRune_ascii.
Qed.

Lemma hex_digit_rune (c : ascii) (d : Z) :
  Spec.digit c = Some d → (d <? 16) = true →
  fmt.isHexDigit (byte_val c) = true ∧ byte_val c < 128
  ∧ fmt.isSpace (byte_val c) = false.
Proof. each_byte c; vm_compute; intros [= <-]; try done. Qed.

(** What is known of the characters of a numeral in base 16: they are
    hexadecimal digits, read as one rune each. *)
Lemma hex_digits_value_runes (s rest : string) (n v : Z) :
  Spec.digits_value 16 n s = Some v →
  utf8.runes (s +:+ rest) = byte_vals s ++ utf8.runes rest ∧
  Forall (λ r, fmt.isHexDigit r = true) (byte_vals s) ∧
  utf8.encode (byte_vals s) = s.
Proof.
  revert n. induction s as [|c s IH]; intros n Hv; [done|].
  cbn [Spec.digits_value] in Hv.
  destruct (Spec.digit c) as [d|] eqn:Hd; [|done].
  cbn [mbind option_bind] in Hv.
  destruct (d <? 16) eqn:Hlt; [|done].
  destruct (hex_digit_rune c d Hd Hlt) as (Hhex & Hascii & _).
  destruct (IH _ Hv) as (Hr & Hall & Henc).
  rewrite append_cons, runes_cons_ascii, Hr by done.
  cbn [byte_vals].
  rewrite encode_cons_ascii, Henc by done.
  split; [done|]. split; [by constructor|done].
Qed.

Lemma accept_all_app (ok : Z → bool) (tok rest : list Z) :
  Forall (λ r, ok r = true) tok →
  head rest ≫= (λ r, if ok r then Some r else None) = None →
  fmt.accept_all ok (tok ++ rest) = (tok, rest).
Proof.
  intros Htok Hrest. induction Htok as [|r tok Hr _ IH]; simpl.
  - destruct rest as [|r rest]; [done|]. simpl in *.
    by destruct (ok r).
  - by rewrite Hr, IH.
Qed.

Lemma SkipSpace_not_space (r : Z) (rs : list Z) :
  fmt.isSpace r = false → fmt.SkipSpace (r :: rs) = Some (tt, r :: rs).
Proof.
  intros Hr. cbn [fmt.SkipSpace].
  destruct (Z.eqb_spec r 13) as [->|_]; [done|].
  destruct (Z.eqb_spec r 10) as [->|_]; [done|].
  cbn [andb]. by rewrite Hr.
Qed.

Lemma scanUint_x_hex64 (h : string) (v : Z) (rest : list Z) :
  Spec.hex64 h = Some v →
  head rest ≫= (λ r, if fmt.isHexDigit r then Some r else None) = None →
  fmt.scanUint_x (byte_vals h ++ rest) = Some (v, rest).
Proof.
  unfold Spec.hex64. intros Hv Hrest.
  pose proof (ParseUint_spec 16 h ltac:(lia)) as HU.
  destruct (Spec.numeral 16 h) as [v'|] eqn:Hnum; [|done].
  cbn [mbind option_bind] in Hv.
  destruct (v' <=? Uint64.max); simplify_eq.
  destruct h as [|c h]; [done|]. unfold Spec.numeral in Hnum.
  destruct (hex_digits_value_runes (String c h) "" 0 v Hnum)
    as (_ & Hall & Henc).
  pose proof Hnum as Hc. cbn [Spec.digits_value] in Hc.
  destruct (Spec.digit c) as [d|] eqn:Hd; [|done].
  cbn [mbind option_bind] in Hc.
  destruct (d <? 16) eqn:Hlt; [|done].
  destruct (hex_digit_rune c d Hd Hlt) as (Hhex & Hascii & Hsp).
  unfold fmt.scanUint_x.
  change (byte_vals (String c h) ++ rest)
    with (byte_val c :: (byte_vals h ++ rest)).
  rewrite SkipSpace_not_space by done.
  cbn [mbind option_bind fmt.notEOF fmt.scanNumber]. rewrite Hhex.
  inv Hall. rewrite accept_all_app by done.
  change (byte_val c :: byte_vals h) with (byte_vals (String c h)).
  cbn [mbind option_bind]. by rewrite Henc, HU.
Qed.



Lemma hex64_runes (h : string) (v : Z) (rest : string) :
  Spec.hex64 h = Some v →
  utf8.runes (h +:+ rest) = byte_vals h ++ utf8.runes rest ∧
  ∀ rs, fmt.SkipSpace (byte_vals h ++ rs) = Some (tt, byte_vals h ++ rs).
Proof.
  unfold Spec.hex64. intros Hv.
  destruct (Spec.numeral 16 h) as [v'|] eqn:Hnum; [|done].
  destruct h as [|c h]; [done|]. unfold Spec.numeral in Hnum.
  destruct (hex_digits_value_runes (String c h) rest 0 v' Hnum) as (-> & _).
  split; [done|]. intros rs.
  cbn [Spec.digits_value] in Hnum.
  destruct (Spec.digit c) as [d|] eqn:Hd; [|done].
  cbn [mbind option_bind] in Hnum. destruct (d <? 16) eqn:Hlt; [|done].
  destruct (hex_digit_rune c d Hd Hlt) as (_ & _ & Hsp).
  cbn [byte_vals]. rewrite <- app_comm_cons.
  by apply SkipSpace_not_space.
Qed.

Lemma format_space_blank (r : Z) (rs : list Z) :
  fmt.isSpace r = false →
  fmt.format_space (32 :: r :: rs) = Some (tt, r :: rs).
Proof.
  intros Hr. unfold fmt.format_space.
  change (fmt.isSpace 32) with true. change (32 =? 10) with false.
  cbn [negb fmt.skip_blanks].
  change (fmt.isSpace 32 && negb (32 =? 10)) with true.
  cbv iota. cbn [fmt.skip_blanks]. by rewrite Hr.
Qed.



Lemma convertString_s_word (r : Z) (rs rest : list Z) :
  Forall (λ r, negb (fmt.isSpace r) = true) (r :: rs) →
  head rest ≫= (λ r, if negb (fmt.isSpace r) then Some r else None) = None →
  fmt.convertString_s ((r :: rs) ++ rest)
  = Some (utf8.encode (r :: rs), rest).
Proof.
  intros Hall Hrest. unfold fmt.convertString_s.
  assert (fmt.isSpace r = false) as Hr by (inv Hall; by apply negb_true_iff).
  rewrite <- app_comm_cons.
  rewrite SkipSpace_not_space by done.
  cbn [mbind option_bind fmt.notEOF].
  rewrite SkipSpace_not_space by done. cbn [mbind option_bind].
  rewrite app_comm_cons. by rewrite accept_all_app.
Qed.






















(** * Properties of the other functions *)

(** * Properties of the coercions *)

Lemma strip_leading_quote_id (s : string) :
  Words.starts_with_quote s = false → Spec.strip_leading_quote s = s.
Proof. destruct s as [|c s]; simpl; [done|]. by intros ->. Qed.

Lemma strip_trailing_quote_id (s : string) :
  Words.ends_with_quote s = false → Spec.strip_trailing_quote s = s.
Proof.
  induction s as [|c s IH]; [done|]. destruct s as [|c' s].
  - simpl. by intros ->.
  - intros Hs. change (Spec.strip_trailing_quote (String c (String c' s)))
      with (String c (Spec.strip_trailing_quote (String c' s))).
    by rewrite IH.
Qed.

Lemma strip_trailing_quote_length (s : string) :
  Words.ends_with_quote s = true →
  S (String.length (Spec.strip_trailing_quote s)) = String.length s.
Proof.
  induction s as [|c s IH]; [done|]. destruct s as [|c' s].
  - simpl. by intros ->.
  - intros Hs. change (Spec.strip_trailing_quote (String c (String c' s)))
      with (String c (Spec.strip_trailing_quote (String c' s))).
    change (String.length (String c ?x)) with (S (String.length x)).
    cbn [String.length]. f_equal. by apply IH.
Qed.

Lemma strip_trailing_quote_shorter (s : string) :
  (String.length (Spec.strip_trailing_quote s) <= String.length s)%nat.
Proof.
  destruct (Words.ends_with_quote s) eqn:Hs.
  - apply strip_trailing_quote_length in Hs. lia.
  - by rewrite strip_trailing_quote_id.
Qed.

Lemma strip_trailing_quote_snoc (s : string) (q : ascii) :
  is_quote q = true → Spec.strip_trailing_quote (s +:+ String q "") = s.
Proof.
  intros Hq. induction s as [|c s IH].
  - rewrite append_nil_l. simpl. by rewrite Hq.
  - rewrite append_cons. destruct s as [|c' s].
    + rewrite append_nil_l in *. simpl. by rewrite Hq.
    + rewrite append_cons in *.
      change (Spec.strip_trailing_quote (String c (String c' ?x)))
        with (String c (Spec.strip_trailing_quote (String c' x))).
      by rewrite IH.
Qed.

(** X1: a string wrapped in one quote character at each end (the two need not
    be the same) is given back by [trimBoundingQuotes], whatever it holds,
    quote characters of its own included. *)
Theorem trimBoundingQuotes_unquotes (s : string) (q1 q2 : ascii) :
  is_quote q1 = true → is_quote q2 = true →
  trimBoundingQuotes (String q1 (s +:+ String q2 "")) = s.
Proof.
  intros H1 H2. rewrite trimBoundingQuotes_strips. simpl. rewrite H1.
  by apply strip_trailing_quote_snoc.
Qed.

Lemma trimBoundingQuotes_unquotes_witness :
  trimBoundingQuotes (String dquote ("'x'" +:+ String "'" "")) = "'x'".
Proof.
  apply (trimBoundingQuotes_unquotes "'x'" dquote "'"); reflexivity.
Defined.

(** X2: [trimBoundingQuotes] leaves a string as it is exactly when the string
    neither starts nor ends with a quote character. *)
Theorem trimBoundingQuotes_fixed_points (s : string) :
  trimBoundingQuotes s = s
  ↔ Words.starts_with_quote s = false ∧ Words.ends_with_quote s = false.
Proof.
  rewrite trimBoundingQuotes_strips. split.
  - intros Heq. apply (f_equal String.length) in Heq.
    destruct (Words.starts_with_quote s) eqn:Hstart.
    + destruct s as [|c s]; [done|]. simpl in Hstart, Heq. rewrite Hstart in Heq.
      pose proof (strip_trailing_quote_shorter s). simpl in Heq. lia.
    + rewrite strip_leading_quote_id in Heq by done. split; [done|].
      destruct (Words.ends_with_quote s) eqn:Hend; [|done].
      apply strip_trailing_quote_length in Hend. lia.
  - intros [Hstart Hend].
    by rewrite strip_leading_quote_id, strip_trailing_quote_id.
Qed.

(** ** Integers as text *)

Lemma digits_not_quotes (base n v : Z) (s : string) :
  Spec.digits_value base n s = Some v →
  s ≠ "" → Words.starts_with_quote s = false ∧ Words.ends_with_quote s = false.
Proof.
  revert n. induction s as [|c s IH]; intros n Hv Hne; [done|].
  cbn [Spec.digits_value] in Hv.
  destruct (Spec.digit c) as [d|] eqn:Hd; [|done].
  cbn [mbind option_bind] in Hv. destruct (d <? base); [|done].
  assert (is_quote c = false) as Hc.
  { revert Hd. clear. each_byte c; vm_compute; done. }
  split; [done|]. destruct s as [|c' s]; [done|].
  change (Words.ends_with_quote (String c (String c' s)))
    with (Words.ends_with_quote (String c' s)).
  by eapply IH.
Qed.

(** The decimal text of an integer is not touched by the trimming. *)
Lemma trimBoundingQuotes_FormatInt (i : Z) :
  trimBoundingQuotes (strconv.FormatInt i) = strconv.FormatInt i.
Proof.
  rewrite trimBoundingQuotes_strips.
  unfold strconv.FormatInt. cbv zeta.
  set (u := if i <? 0 then Uint64.wrap (- Uint64.wrap i) else Uint64.wrap i).
  assert (0 <= u < 10 ^ Z.of_nat 20) as Hu.
  { subst u. unfold Uint64.wrap.
    destruct (i <? 0);
      match goal with |- _ <= ?x mod _ < _ =>
        pose proof (Z.mod_pos_bound x (2 ^ 64) ltac:(lia)) end; lia. }
  destruct (formatBits_loop_spec 19 u "" Hu) as (k & ds & -> & Hval & _).
  rewrite append_nil_r.
  destruct (digits_not_quotes _ _ _ _ Hval ltac:(done)) as [Hs He].
  destruct (i <? 0).
  - rewrite strip_leading_quote_id by done.
    apply strip_trailing_quote_id. exact He.
  - by rewrite strip_leading_quote_id, strip_trailing_quote_id.
Qed.

(** X3: an integer attribute resolved as a string gives a text which, used
    as an attribute name that is not registered (a literal of a policy
    expression), resolves back to the same integer, and to itself as a
    string. *)
Theorem integer_text_resolves_back (m m' : FieldMapper) (n : string)
    (r r' : Record) (i : Z) :
  Map m n r = Ok (VInt i) → Int64.in_range i →
  Mappers m' !! strconv.FormatInt i = None →
  MapStr m n r = Ok (strconv.FormatInt i) ∧
  MapInt m' (strconv.FormatInt i) r' = Ok i ∧
  MapStr m' (strconv.FormatInt i) r' = Ok (strconv.FormatInt i).
Proof.
  intros Hv Hi Hnone. split_and!.
  - unfold MapStr. by rewrite Hv.
  - unfold MapInt, Map. rewrite Hnone. cbn [mbind result_bind].
    destruct (FormatInt_spec i Hi) as [Hlit _].
    pose proof (ParseInt_int64_literal (strconv.FormatInt i)) as Hparse.
    rewrite Hlit in Hparse. by rewrite Hparse.
  - unfold MapStr, Map. rewrite Hnone. cbn [mbind result_bind].
    by rewrite trimBoundingQuotes_FormatInt.
Qed.

Lemma integer_text_resolves_back_witness :
  MapInt sample_mapper "-2" sample_record = Ok (-2).
Proof.
  apply (integer_text_resolves_back sample_mapper sample_mapper "sf.ret"
           sample_record sample_record (-2)).
  - reflexivity.
  - vm_compute. split; discriminate.
  - reflexivity.
Defined.

(** X4: the integer resolution of an attribute registered with [mapStr] or
    [mapEntry] never reads the record: the text of the field is not parsed,
    even when it is a number, and the result is the value of the attribute's
    name when that is a decimal literal, zero otherwise. *)
Theorem MapInt_ignores_text_fields (m : FieldMapper) (n : string)
    (src : Source) (attr : Attribute) (r : Record) :
  Mappers m !! n = Some (mapStr src attr) ∨
  Mappers m !! n = Some (mapEntry src attr) →
  MapInt m n r = Ok (default 0 (Spec.int64_literal n)).
Proof.
  assert (match strconv.ParseInt n 10 64 with
          | (i, None) => Ok i
          | (_, Some _) => Ok Zeros.Int64
          end = Ok (default 0 (Spec.int64_literal n))) as Hparse.
  { pose proof (ParseInt_int64_literal n) as Hn.
    destruct (Spec.int64_literal n) as [i|].
    - by rewrite Hn.
    - by destruct Hn as (i & e & ->). }
  unfold MapInt, Map. intros [-> | ->]; cbn [mbind result_bind].
  - done.
  - unfold mapEntry. by destruct (GetInt r attr src =? 1).
Qed.

Lemma MapInt_ignores_text_fields_witness :
  MapInt sample_mapper "sf.proc.exe" (record_of (fun _ => 0) "42") = Ok 0.
Proof.
  apply (MapInt_ignores_text_fields sample_mapper "sf.proc.exe" 0 2
           (record_of (fun _ => 0) "42")).
  left. reflexivity.
Defined.

(** * Properties of the factories *)

(** ** Sums *)

Lemma mapSum_wrapped (src : Source) (attrs : list Attribute) (r : Record) :
  mapSum src attrs r = Ok (VInt (Int64.wrap (Spec.field_sum r src attrs))).
Proof.
  unfold mapSum. do 2 f_equal.
  rewrite <- (Z.add_0_l (Spec.field_sum r src attrs)), <- mapSum_loop.
  symmetry. destruct attrs as [|a attrs _] using rev_ind; [done|].
  rewrite fold_left_app. simpl. apply wrap_in_range, wrap_range.
Qed.

Lemma field_sum_app (r : Record) (src : Source) (l1 l2 : list Attribute) :
  Spec.field_sum r src (l1 ++ l2)
  = Spec.field_sum r src l1 + Spec.field_sum r src l2.
Proof. induction l1 as [|a l1 IH]; simpl; [done|]. rewrite IH. lia. Qed.

Lemma field_sum_Permutation (r : Record) (src : Source) (l1 l2 : list Attribute) :
  l1 ≡ₚ l2 → Spec.field_sum r src l1 = Spec.field_sum r src l2.
Proof. induction 1; simpl; lia. Qed.

Lemma wrap_add_wrap (a b : Z) :
  Int64.wrap (Int64.wrap a + Int64.wrap b) = Int64.wrap (a + b).
Proof.
  rewrite wrap_add_wrap_l, Z.add_comm, wrap_add_wrap_l. f_equal. lia.
Qed.

(** X5: the sum over two lists of fields put together is the wrapped sum of
    the two sums, and the order of the fields does not change the result,
    overflow or not. A sum of one field is the field. *)
Theorem mapSum_composes (src : Source) (r : Record) :
  (∀ l1 l2 v1 v2,
     mapSum src l1 r = Ok (VInt v1) → mapSum src l2 r = Ok (VInt v2) →
     mapSum src (l1 ++ l2) r = Ok (VInt (Int64.wrap (v1 + v2)))) ∧
  (∀ l1 l2, l1 ≡ₚ l2 → mapSum src l1 r = mapSum src l2 r) ∧
  (∀ attr, mapSum src [attr] r = mapInt src attr r).
Proof.
  split_and!.
  - intros l1 l2 v1 v2. rewrite !mapSum_wrapped. intros [= <-] [= <-].
    by rewrite field_sum_app, wrap_add_wrap.
  - intros l1 l2 Hp. rewrite !mapSum_wrapped.
    by rewrite (field_sum_Permutation r src l1 l2 Hp).
  - intros attr. rewrite mapSum_wrapped. unfold mapInt. simpl.
    rewrite Z.add_0_r. do 2 f_equal. apply wrap_in_range, wrap_range.
Qed.

Lemma mapSum_composes_witness :
  mapSum 0 ([1; 4] ++ [1]) sample_record = Ok (VInt (Int64.wrap (4 + -2))).
Proof.
  apply (proj1 (mapSum_composes 0 sample_record) [1; 4] [1] 4 (-2));
    reflexivity.
Defined.

(** ** Joins *)

Lemma spaced_fields_length (r : Record) (src : Source) (attrs : list Attribute) :
  String.length (Spec.spaced_fields r src attrs)
  = (Words.total_length r src attrs + length attrs)%nat.
Proof.
  induction attrs as [|a attrs IH]; [done|].
  cbn [Spec.spaced_fields Words.total_length foldr length].
  change (foldr _ "" attrs) with (Spec.spaced_fields r src attrs).
  change (foldr _ O attrs) with (Words.total_length r src attrs).
  rewrite append_cons, append_nil_l. cbn [String.length].
  rewrite length_append, IH. lia.
Qed.

(** X6: the join of a list of fields that is not empty is as long as the
    fields together plus one space between each two: no field is trimmed or
    dropped, an empty field included. The join of one field is the field. *)
Theorem mapJoin_length (src : Source) (r : Record)
    (attr0 : Attribute) (attrs1 : list Attribute) :
  (∃ s, mapJoin src (attr0 :: attrs1) r = Ok (VStr s) ∧
        String.length s
        = (Words.total_length r src (attr0 :: attrs1) + length attrs1)%nat) ∧
  mapJoin src [attr0] r = mapStr src attr0 r.
Proof.
  split.
  - eexists. split; [reflexivity|].
    rewrite mapJoin_loop, length_append, spaced_fields_length. simpl. lia.
  - unfold mapJoin, mapStr. simpl. done.
Qed.

(** X7: a name that is not registered and is a decimal literal whose value
    does not fit in 64 bits resolves to zero as an integer: the nearest
    bound, which [strconv.ParseInt] returns along with its error, is not
    used. *)
Theorem MapInt_out_of_range_literal (m : FieldMapper) (n : string)
    (r : Record) (v : Z) :
  Mappers m !! n = None →
  Spec.decimal_literal n = Some v → ¬ Int64.in_range v →
  MapInt m n r = Ok 0.
Proof.
  intros Hnone Hlit Hrange. unfold MapInt, Map. rewrite Hnone.
  cbn [mbind result_bind].
  pose proof (ParseInt_int64_literal n) as Hparse.
  unfold Spec.int64_literal in Hparse. rewrite Hlit in Hparse.
  cbn [mbind option_bind] in Hparse.
  destruct (Z.leb_spec Int64.min v), (Z.leb_spec v Int64.max);
    cbn [andb] in Hparse;
    [exfalso; by apply Hrange|by destruct Hparse as (i & e & ->)..].
Qed.

Lemma MapInt_out_of_range_literal_witness :
  MapInt sample_mapper "9223372036854775808" sample_record = Ok 0.
Proof.
  apply (MapInt_out_of_range_literal sample_mapper "9223372036854775808"
           sample_record (2 ^ 63)); [reflexivity|reflexivity|].
  unfold Int64.in_range, Int64.min, Int64.max. lia.
Defined.

(** ** Record types *)

(** X8: [mapRecType] always returns one of its nine tags, as a string, and
    the unknown tag for every code other than the eight it knows; so the
    type assertion of [mapOpFlags] on its result never fails, and
    [mapOpFlags] returns a string for every record. *)
Theorem mapRecType_closed `{Constants} `{RecordConstants} `{Utils}
    (src : Source) (r : Record) :
  let t := GetInt r SF_REC_TYPE src in
  (∃ tag, mapRecType src r = Ok (VStr tag) ∧
          tag ∈ [TyP; TyF; TyC; TyPE; TyFE; TyFF; TyNF; TyH; TyUnknow] ∧
          mapOpFlags src r
          = Ok (VStr (Join (GetOpFlags
                              (Int32.wrap (GetInt r EV_PROC_OPFLAGS_INT src))
                              tag) LISTSEP))) ∧
  (t ∉ [PROC; FILE; CONT; PROC_EVT; FILE_EVT; FILE_FLOW; NET_FLOW; HEADER] →
   mapRecType src r = Ok (VStr TyUnknow)).
Proof.
  intros t. split.
  - unfold mapOpFlags, mapRecType. fold t.
    repeat (match goal with
            | |- context [if ?b then _ else _] => destruct b
            end;
            [eexists; split; [reflexivity|];
             split; [set_solver|reflexivity]|]).
    eexists. split; [reflexivity|]. split; [set_solver|reflexivity].
  - intros Ht. unfold mapRecType. fold t.
    repeat match goal with
           | |- context [if ?x =? ?y then _ else _] =>
               destruct (Z.eqb_spec x y) as [Heq|_];
               [exfalso; apply Ht; rewrite Heq; set_solver|]
           end.
    done.
Qed.

Lemma mapRecType_closed_witness :
  @mapRecType sample_constants sample_record_constants 0
    (record_of (fun _ => 42) "")
  = Ok (VStr "").
Proof.
  apply (proj2 (@mapRecType_closed sample_constants sample_record_constants
                  sample_utils 0 (record_of (fun _ => 42) ""))).
  change (42 ∉ [2; 3; 1; 4; 7; 6; 5; 0]).
  intros Hin. repeat (apply elem_of_cons in Hin as [Hin|Hin]; [discriminate|]).
  by apply elem_of_nil in Hin.
Defined.

(** X9: the return code and the end timestamp are never both read from one
    record: when the two event codes differ from the two flow codes, one of
    [mapRet] and [mapEndTs] yields zero. *)
Theorem mapRet_mapEndTs_exclusive `{Constants} `{RecordConstants}
    (src : Source) (r : Record) :
  PROC_EVT ≠ FILE_FLOW → PROC_EVT ≠ NET_FLOW →
  FILE_EVT ≠ FILE_FLOW → FILE_EVT ≠ NET_FLOW →
  mapRet src r = Ok (VInt 0) ∨ mapEndTs src r = Ok (VInt 0).
Proof.
  intros H1 H2 H3 H4. unfold mapRet, mapEndTs.
  destruct (Z.eqb_spec (GetInt r SF_REC_TYPE src) PROC_EVT) as [Ht|_].
  { right. rewrite Ht.
    destruct (Z.eqb_spec PROC_EVT FILE_FLOW); [done|].
    by destruct (Z.eqb_spec PROC_EVT NET_FLOW). }
  destruct (Z.eqb_spec (GetInt r SF_REC_TYPE src) FILE_EVT) as [Ht|_].
  { right. rewrite Ht.
    destruct (Z.eqb_spec FILE_EVT FILE_FLOW); [done|].
    by destruct (Z.eqb_spec FILE_EVT NET_FLOW). }
  by left.
Qed.

Lemma mapRet_mapEndTs_exclusive_witness :
  @mapRet sample_constants 0 sample_record = Ok (VInt 0) ∨
  @mapEndTs sample_constants sample_record_constants 0 sample_record
  = Ok (VInt 0).
Proof.
  apply (@mapRet_mapEndTs_exclusive sample_constants sample_record_constants
           0 sample_record); discriminate.
Defined.

(** ** Flags *)

(** X10: resolved as a string, an attribute registered with [mapEntry] is
    "true" exactly when the field is 1 and "false" for every other value;
    it is never anything else. *)
Theorem mapEntry_as_text (m : FieldMapper) (n : string)
    (src : Source) (attr : Attribute) (r : Record) :
  Mappers m !! n = Some (mapEntry src attr) →
  (MapStr m n r = Ok "true" ↔ GetInt r attr src = 1) ∧
  (MapStr m n r = Ok "false" ↔ GetInt r attr src ≠ 1).
Proof.
  intros Hn. unfold MapStr, Map. rewrite Hn. unfold mapEntry.
  destruct (Z.eqb_spec (GetInt r attr src) 1); cbn [mbind result_bind];
    unfold strconv.FormatBool; split; split; try done;
    first [by intros [=] | congruence].
Qed.

Lemma mapEntry_as_text_witness :
  MapStr sample_flag_mapper "sf.proc.entry" (record_of (fun _ => 1) "")
  = Ok "true".
Proof.
  refine (proj2 (proj1 (mapEntry_as_text sample_flag_mapper "sf.proc.entry"
                          0 1 (record_of (fun _ => 1) "") _)) _);
    reflexivity.
Defined.

(** ** Lists of values *)

Lemma collect_loop {A} (f : Attribute → A) (attrs : list Attribute) (acc : list A) :
  fold_left (λ acc attr, acc ++ [f attr]) attrs acc = acc ++ map f attrs.
Proof.
  revert acc. induction attrs as [|a attrs IH]; intros acc; simpl.
  - by rewrite app_nil_r.
  - by rewrite IH, <- app_assoc.
Qed.

(** X11: the port list of one field is the decimal text of the field, which
    parses back to the field's value; the port list of two fields is the
    two decimal texts with the separator between them. *)
Theorem mapPort_texts `{RecordConstants} (src : Source) (r : Record) :
  (∀ attr,
     mapPort src [attr] r = Ok (VStr (strconv.FormatInt (GetInt r attr src))) ∧
     strconv.ParseInt (strconv.FormatInt (GetInt r attr src)) 10 64
     = (GetInt r attr src, None)) ∧
  (∀ a b,
     mapPort src [a; b] r
     = Ok (VStr (strconv.FormatInt (GetInt r a src) +:+ LISTSEP
                 +:+ strconv.FormatInt (GetInt r b src)))).
Proof.
  split.
  - intros attr. split; [done|].
    destruct (FormatInt_spec (GetInt r attr src)) as [Hlit _];
      [apply wrap_range|].
    pose proof (ParseInt_int64_literal
                  (strconv.FormatInt (GetInt r attr src))) as Hparse.
    by rewrite Hlit in Hparse.
  - done.
Qed.

Lemma Int32_wrap_add (x k : Z) : Int32.wrap (x + k * 2 ^ 32) = Int32.wrap x.
Proof.
  unfold Int32.wrap. f_equal.
  replace (x + k * 2 ^ 32 + 2 ^ 31) with (x + 2 ^ 31 + k * 2 ^ 32) by lia.
  apply Z_mod_plus_full.
Qed.

(** X12: the operation flags and the IP addresses are read through [int32]:
    only the low 32 bits of the fields count. Two records of the same type
    whose flags differ by a multiple of 2^32 have the same flags text, and
    two records whose address fields differ by multiples of 2^32 have the
    same address text. *)
Theorem int32_fields_truncated `{Constants} `{RecordConstants} `{Utils}
    (src : Source) (r1 r2 : Record) :
  (∀ k, GetInt r1 SF_REC_TYPE src = GetInt r2 SF_REC_TYPE src →
        GetInt r2 EV_PROC_OPFLAGS_INT src
        = GetInt r1 EV_PROC_OPFLAGS_INT src + k * 2 ^ 32 →
        mapOpFlags src r1 = mapOpFlags src r2) ∧
  (∀ attrs,
     Forall (λ attr, ∃ k, GetInt r2 attr src = GetInt r1 attr src + k * 2 ^ 32)
            attrs →
     mapIP src attrs r1 = mapIP src attrs r2).
Proof.
  split.
  - intros k Ht Hflags. unfold mapOpFlags, mapRecType.
    by rewrite Hflags, Int32_wrap_add, Ht.
  - intros attrs Hall. unfold mapIP. rewrite !collect_loop, !app_nil_l.
    do 3 f_equal.
    induction Hall as [|a attrs [k Hk] _ IH]; [done|]. simpl.
    by rewrite Hk, Int32_wrap_add, IH.
Qed.

Lemma int32_fields_truncated_witness :
  @mapIP sample_record_constants sample_utils 0 [1] (record_of (fun _ => 7) "")
  = @mapIP sample_record_constants sample_utils 0 [1]
      (record_of (fun _ => 7 + 2 ^ 32) "").
Proof.
  apply (proj2 (@int32_fields_truncated sample_constants
                  sample_record_constants sample_utils 0
                  (record_of (fun _ => 7) "")
                  (record_of (fun _ => 7 + 2 ^ 32) "")) [1]).
  constructor; [|constructor]. exists 1. reflexivity.
Defined.

(** ** Object identifiers *)

Lemma mapOID_loop (r : Record) (src : Source) (attrs : list Attribute)
    (written : string) :
  fold_left (λ written attr,
               written +:+ strconv.FormatInt (GetInt r attr src))
            attrs written
  = written +:+ Words.decimal_texts r src attrs.
Proof.
  revert written. induction attrs as [|a attrs IH]; intros written; simpl.
  - by rewrite append_nil_r.
  - by rewrite IH, append_assoc.
Qed.

(** X13: whatever the hash, the identifier made by [mapOID] depends on the
    fields only through their decimal texts written one after the other,
    with nothing between them: records whose texts run together to the same
    digits get the same identifier, as the fields 1, 23 and 12, 3 do. *)
Theorem mapOID_runs_fields_together `{Utils} (src : Source)
    (attrs1 attrs2 : list Attribute) (r1 r2 : Record) :
  Words.decimal_texts r1 src attrs1 = Words.decimal_texts r2 src attrs2 →
  mapOID src attrs1 r1 = mapOID src attrs2 r2.
Proof.
  intros Htexts. unfold mapOID. rewrite !mapOID_loop. by rewrite Htexts.
Qed.

Lemma mapOID_runs_fields_together_witness :
  @mapOID sample_utils 0 [1; 2]
    (record_of (fun a => if a =? 1 then 1 else 23) "")
  = @mapOID sample_utils 0 [1; 2]
      (record_of (fun a => if a =? 1 then 12 else 3) "").
Proof.
  apply (@mapOID_runs_fields_together sample_utils 0 [1; 2] [1; 2]
           (record_of (fun a => if a =? 1 then 1 else 23) "")
           (record_of (fun a => if a =? 1 then 12 else 3) "")).
  reflexivity.
Defined.

(** ** Paths *)

Lemma chars_app (s1 s2 : string) :
  filepath.chars (s1 +:+ s2) = filepath.chars s1 ++ filepath.chars s2.
Proof.
  induction s1 as [|c s1 IH]; [done|]. rewrite append_cons. simpl.
  by f_equal.
Qed.

Lemma text_chars (s : string) : filepath.text (filepath.chars s) = s.
Proof. apply String.string_of_list_ascii_of_string. Qed.

Lemma text_app (l1 l2 : list ascii) :
  filepath.text (l1 ++ l2) = filepath.text l1 +:+ filepath.text l2.
Proof.
  induction l1 as [|c l1 IH]; [done|]. simpl. rewrite append_cons.
  by f_equal.
Qed.

Lemma slash_free_chars (s : string) :
  Words.slash_free s = true →
  Forall (λ c, filepath.IsPathSeparator c = false) (filepath.chars s).
Proof.
  induction s as [|c s IH]; simpl; [constructor|].
  intros [Hc Hs]%andb_prop. constructor; [|by apply IH].
  by apply negb_true_iff.
Qed.

Lemma last_element_spec (elem rest acc : list ascii) :
  Forall (λ c, filepath.IsPathSeparator c = false) elem →
  head rest ≫= (λ c, if filepath.IsPathSeparator c then None else Some c)
  = None →
  filepath.last_element (elem ++ rest) acc = (rev elem ++ acc, rest).
Proof.
  intros Helem Hrest. revert acc.
  induction Helem as [|c elem Hc _ IH]; intros acc; simpl.
  - destruct rest as [|c rest]; [done|]. simpl in *.
    by destruct (filepath.IsPathSeparator c).
  - by rewrite Hc, IH, <- app_assoc.
Qed.

Lemma Base_chars (path : string) (c : ascii) (elem rest : list ascii) :
  rev (filepath.chars path) = rev (c :: elem) ++ rest →
  Forall (λ c, filepath.IsPathSeparator c = false) (c :: elem) →
  head rest ≫= (λ c, if filepath.IsPathSeparator c then None else Some c)
  = None →
  filepath.Base path = filepath.text (c :: elem).
Proof.
  intros Hrev Helem Hrest. unfold filepath.Base.
  destruct path as [|c0 path].
  { simpl in Hrev. by destruct (rev elem). }
  cbv zeta. rewrite Hrev.
  assert (∃ d l, rev (c :: elem) = d :: l ∧ filepath.IsPathSeparator d = false)
    as (d & l & Hd & Hsep).
  { apply Forall_rev in Helem. destruct (rev (c :: elem)) as [|d l] eqn:Hr.
    - simpl in Hr. by destruct (rev elem).
    - inv Helem. eauto. }
  assert (filepath.strip_separators (rev (c :: elem) ++ rest)
          = rev (c :: elem) ++ rest) as ->.
  { rewrite Hd. simpl. by rewrite Hsep. }
  rewrite last_element_spec; [|by apply Forall_rev|done].
  by rewrite rev_involutive, app_nil_r.
Qed.

Lemma Base_not_empty (path : string) : filepath.Base path ≠ "".
Proof.
  unfold filepath.Base. destruct path as [|c path]; [done|]. cbv zeta.
  generalize (filepath.strip_separators (rev (filepath.chars (String c path)))).
  intros rpath.
  assert (∀ acc, acc ≠ [] → (filepath.last_element rpath acc).1 ≠ []) as Hacc.
  { induction rpath as [|d rpath IH]; intros acc Hacc; simpl; [done|].
    destruct (filepath.IsPathSeparator d); [done|]. by apply IH. }
  destruct rpath as [|d rpath]; [done|]. simpl.
  destruct (filepath.IsPathSeparator d); [done|].
  specialize (Hacc [d] ltac:(done)).
  destruct (filepath.last_element rpath [d]).1; done.
Qed.

(** X15: the name extracted by [mapName] is never empty; for a field of the
    form [dir/name], with a name that is not empty and has no slash, it is
    the name, and a field that is such a name is given back whole; a slash
    at the end of a field that is not empty changes nothing. *)
Theorem mapName_last_element (src : Source) (attr : Attribute) (r : Record) :
  mapName src attr r ≠ Ok (VStr "") ∧
  (∀ dir name, Words.slash_free name = true → name ≠ "" →
     GetStr r attr src = dir +:+ "/" +:+ name ∨ GetStr r attr src = name →
     mapName src attr r = Ok (VStr name)) ∧
  (∀ r', GetStr r attr src ≠ "" →
     GetStr r' attr src = GetStr r attr src +:+ "/" →
     mapName src attr r' = mapName src attr r).
Proof.
  unfold mapName. split_and!.
  - intros [= Hb]. by apply Base_not_empty in Hb.
  - intros dir name Hfree Hne Hpath. do 2 f_equal.
    destruct name as [|c name]; [done|].
    pose proof (slash_free_chars _ Hfree) as Hall.
    destruct Hpath as [-> | ->].
    + rewrite (Base_chars _ c (filepath.chars name)
                 ("/"%char :: rev (filepath.chars dir)));
        [apply (text_chars (String c name))| |done|done].
      rewrite !chars_app, !rev_app_distr. simpl.
      by rewrite <- !app_assoc.
    + rewrite (Base_chars _ c (filepath.chars name) []);
        [apply (text_chars (String c name))| |done|done].
      by rewrite app_nil_r.
  - intros r' Hne ->. do 2 f_equal. unfold filepath.Base.
    destruct (GetStr r attr src) as [|c path] eqn:Hpath; [done|].
    rewrite append_cons. cbv zeta.
    rewrite <- append_cons, chars_app, rev_app_distr. done.
Qed.

Lemma mapName_last_element_witness :
  mapName 0 0 (record_of (fun _ => 0) "/usr/bin/ls") = Ok (VStr "ls").
Proof.
  apply (proj1 (proj2 (mapName_last_element 0 0
                  (record_of (fun _ => 0) "/usr/bin/ls"))) "/usr/bin" "ls");
    [reflexivity|discriminate|left; reflexivity].
Defined.

Lemma Clean_not_empty (path : string) : filepath.Clean path ≠ "".
Proof.
  unfold filepath.Clean. destruct path as [|c path]; [done|]. cbv zeta.
  match goal with |- context [match ?o with [] => _ | _ => _ end] =>
    destruct o as [|d out] eqn:Hout end; [done|].
  intros Htext. apply (f_equal filepath.chars) in Htext.
  unfold filepath.chars, filepath.text in Htext.
  rewrite String.list_ascii_of_string_of_list_ascii in Htext.
  simpl in Htext. by destruct (rev out).
Qed.

(** Inside an element, the loop copies up to the end of the element. *)
Lemma Clean_loop_copy (rooted : bool) (elem tail : string)
    (out : list ascii) (dotdot : nat) :
  Words.slash_free elem = true →
  filepath.Clean_loop rooted true (elem +:+ tail) out dotdot
  = filepath.Clean_loop rooted true tail (rev (filepath.chars elem) ++ out)
      dotdot.
Proof.
  revert out. induction elem as [|c elem IH]; intros out Hfree; [done|].
  simpl in Hfree. apply andb_prop in Hfree as [Hc Hfree].
  apply negb_true_iff in Hc.
  rewrite append_cons. cbn [filepath.Clean_loop]. rewrite Hc.
  rewrite IH by done. cbn [filepath.chars String.list_ascii_of_string rev].
  by rewrite <- app_assoc.
Qed.

Lemma element_ends_app (elem tail : string) :
  Words.slash_free elem = true → filepath.element_ends tail = true →
  filepath.element_ends (elem +:+ tail) = String.eqb elem "".
Proof.
  intros Hfree Htail. destruct elem as [|c elem]; [done|].
  simpl in Hfree. apply andb_prop in Hfree as [Hc _].
  apply negb_true_iff in Hc. by rewrite append_cons.
Qed.

(** At the start of a plain element, the loop writes a separator if one is
    due and copies the element. *)
Lemma Clean_loop_element (rooted : bool) (elem tail : string)
    (out : list ascii) (dotdot : nat) :
  Words.plain_element elem = true → filepath.element_ends tail = true →
  filepath.Clean_loop rooted false (elem +:+ tail) out dotdot
  = filepath.Clean_loop rooted true tail
      (rev (filepath.chars elem) ++ Words.with_separator rooted out) dotdot.
Proof.
  unfold Words.plain_element.
  intros [[[Hne Hfree]%andb_prop Hdot%negb_true_iff]%andb_prop
          Hdotdot%negb_true_iff]%andb_prop Htail.
  destruct elem as [|c elem]; [done|].
  pose proof Hfree as Hfree'. simpl in Hfree'.
  apply andb_prop in Hfree' as [Hc Hfree'].
  apply negb_true_iff in Hc.
  assert (∀ o, filepath.Clean_loop rooted true (elem +:+ tail) (c :: o) dotdot
            = filepath.Clean_loop rooted true tail
                (rev (filepath.chars (String c elem)) ++ o) dotdot) as Hcopy.
  { intros o. rewrite Clean_loop_copy by done.
    cbn [filepath.chars String.list_ascii_of_string rev].
    by rewrite <- app_assoc. }
  rewrite append_cons. cbn [filepath.Clean_loop]. rewrite Hc.
  rewrite element_ends_app by done.
  destruct (Ascii.eqb_spec c ".") as [->|Hc1].
  - (* the element starts with a dot *)
    destruct elem as [|c' elem]; [done|]. cbn [String.eqb andb].
    rewrite append_cons.
    simpl in Hfree'. apply andb_prop in Hfree' as [Hc' Hfree''].
    rewrite element_ends_app by done.
    destruct (Ascii.eqb_spec c' ".") as [->|Hc2].
    + destruct elem as [|c'' elem]; [done|]. cbn [String.eqb andb].
      rewrite <- append_cons. apply Hcopy.
    + cbn [andb]. rewrite <- append_cons. apply Hcopy.
  - cbn [andb]. revert Hcopy.
    destruct (elem +:+ tail); intros Hcopy; apply Hcopy.
Qed.

Lemma absolute_app (l1 l2 : list string) :
  Words.absolute (l1 ++ l2) = Words.absolute l1 +:+ Words.absolute l2.
Proof.
  induction l1 as [|e l1 IH]; [done|]. simpl. rewrite IH.
  by rewrite !append_assoc.
Qed.

Lemma absolute_slash (elems : list string) :
  Words.absolute elems +:+ "/" = "/" +:+ Words.elements_with_slash elems.
Proof.
  induction elems as [|e elems IH]; [done|]. simpl.
  by rewrite !append_assoc, IH.
Qed.

Lemma written_snoc (elems : list string) (e : string) :
  Forall (λ e, Words.plain_element e = true) elems →
  rev (filepath.chars e) ++ Words.with_separator true (Words.written elems)
  = Words.written (elems ++ [e]).
Proof.
  intros Hplain. destruct elems as [|e0 elems].
  - unfold Words.written, Words.with_separator, Words.absolute.
    cbn [app foldr length Nat.eqb andb orb negb].
    rewrite append_nil_r. change ("/" +:+ e) with (String "/" e).
    done.
  - assert (Words.written (e0 :: elems)
            = rev (filepath.chars (Words.absolute (e0 :: elems)))) as -> by done.
    assert (Words.written ((e0 :: elems) ++ [e])
            = rev (filepath.chars (Words.absolute ((e0 :: elems) ++ [e]))))
      as -> by done.
    unfold Words.with_separator.
    assert ((length (rev (filepath.chars (Words.absolute (e0 :: elems))))
             =? 1)%nat = false) as ->.
    { apply Nat.eqb_neq. rewrite length_rev. inv Hplain.
      destruct e0 as [|c e0]; [done|]. simpl. lia. }
    cbn [andb negb orb].
    rewrite absolute_app, chars_app, rev_app_distr.
    assert (Words.absolute [e] = String "/" e) as ->.
    { unfold Words.absolute. cbn [foldr]. by rewrite append_nil_r. }
    cbn [filepath.chars String.list_ascii_of_string rev].
    by rewrite <- app_assoc.
Qed.

Lemma Clean_loop_absolute (elems done : list string) :
  Forall (λ e, Words.plain_element e = true) done →
  Forall (λ e, Words.plain_element e = true) elems →
  filepath.Clean_loop true false (Words.elements_with_slash elems)
    (Words.written done) 1
  = Words.written (done ++ elems).
Proof.
  intros Hdone Helems. revert done Hdone.
  induction Helems as [|e elems He _ IH]; intros done Hdone.
  { by rewrite app_nil_r. }
  cbn [Words.elements_with_slash foldr].
  change (foldr _ "" elems) with (Words.elements_with_slash elems).
  rewrite Clean_loop_element by done.
  change ("/" +:+ Words.elements_with_slash elems)
    with (String "/" (Words.elements_with_slash elems)).
  cbn [filepath.Clean_loop].
  change (filepath.IsPathSeparator "/") with true. cbv iota.
  rewrite written_snoc by done. rewrite IH.
  - by rewrite <- app_assoc.
  - apply Forall_app. split; [done|]. by constructor.
Qed.

Lemma Clean_absolute_dir (elems : list string) :
  Forall (λ e, Words.plain_element e = true) elems →
  filepath.Clean (Words.absolute elems +:+ "/")
  = match elems with [] => "/" | _ => Words.absolute elems end.
Proof.
  intros Hplain. rewrite absolute_slash.
  change ("/" +:+ Words.elements_with_slash elems)
    with (String "/" (Words.elements_with_slash elems)).
  unfold filepath.Clean.
  change (filepath.IsPathSeparator "/") with true. cbv iota zeta.
  change [filepath.Separator] with (Words.written []).
  rewrite (Clean_loop_absolute elems []) by done. rewrite app_nil_l.
  destruct elems as [|e elems]; [done|].
  assert (Words.written (e :: elems)
          = rev (filepath.chars (Words.absolute (e :: elems)))) as -> by done.
  destruct (rev (filepath.chars (Words.absolute (e :: elems)))) as [|c l] eqn:Hr.
  - apply (f_equal (@length _)) in Hr. rewrite length_rev in Hr. done.
  - by rewrite <- Hr, rev_involutive, text_chars.
Qed.

Lemma Dir_split (dir name : string) :
  Words.slash_free name = true →
  filepath.Dir (dir +:+ "/" +:+ name) = filepath.Clean (dir +:+ "/").
Proof.
  intros Hfree. unfold filepath.Dir. f_equal.
  rewrite !chars_app, !rev_app_distr. simpl.
  rewrite <- app_assoc. simpl.
  rewrite last_element_spec;
    [|by apply Forall_rev, slash_free_chars|done].
  cbn [snd rev]. by rewrite rev_involutive, text_app, text_chars.
Qed.

Lemma Dir_slash_free (path : string) :
  Words.slash_free path = true → filepath.Dir path = ".".
Proof.
  intros Hfree. unfold filepath.Dir.
  rewrite <- (app_nil_r (rev (filepath.chars path))).
  rewrite last_element_spec;
    [|by apply Forall_rev, slash_free_chars|done].
  done.
Qed.

(** X16: the directory extracted by [mapDir] is never empty; it is [.] for a
    field without a slash; and for a field [/e1/.../en/name], where the
    elements are plain names and the name has no slash, it is [/e1/.../en]
    (the root [/] when there is no element). *)
Theorem mapDir_directory (src : Source) (attr : Attribute) (r : Record) :
  mapDir src attr r ≠ Ok (VStr "") ∧
  (Words.slash_free (GetStr r attr src) = true →
     mapDir src attr r = Ok (VStr ".")) ∧
  (∀ elems name,
     Forall (λ e, Words.plain_element e = true) elems →
     Words.slash_free name = true →
     GetStr r attr src = Words.absolute elems +:+ "/" +:+ name →
     mapDir src attr r
     = Ok (VStr (match elems with [] => "/" | _ => Words.absolute elems end))).
Proof.
  unfold mapDir. split_and!.
  - intros [= Hd]. by apply Clean_not_empty in Hd.
  - intros Hfree. by rewrite Dir_slash_free.
  - intros elems name Hplain Hfree ->.
    by rewrite Dir_split, Clean_absolute_dir.
Qed.

Lemma mapDir_directory_witness :
  mapDir 0 0 (record_of (fun _ => 0) "/usr/bin/ls") = Ok (VStr "/usr/bin").
Proof.
  apply (proj2 (proj2 (mapDir_directory 0 0
                  (record_of (fun _ => 0) "/usr/bin/ls")))
           ["usr"; "bin"] "ls"); [|reflexivity|reflexivity].
  repeat constructor.
Defined.

(** X17: for a field [/e1/.../en/name] with at least one element, plain
    elements and a plain name, the directory of [mapDir], a slash and the
    name of [mapName] make up the field again. *)
Theorem mapDir_mapName_recompose (src : Source) (attr : Attribute) (r : Record)
    (elems : list string) (name : string) :
  elems ≠ [] →
  Forall (λ e, Words.plain_element e = true) elems →
  Words.plain_element name = true →
  GetStr r attr src = Words.absolute elems +:+ "/" +:+ name →
  ∃ dir base,
    mapDir src attr r = Ok (VStr dir) ∧
    mapName src attr r = Ok (VStr base) ∧
    dir +:+ "/" +:+ base = GetStr r attr src.
Proof.
  intros Hne Hplain Hname Hpath.
  assert (Words.slash_free name = true ∧ name ≠ "") as [Hfree Hnonempty].
  { unfold Words.plain_element in Hname.
    apply andb_prop in Hname as [[[Hn Hf]%andb_prop _]%andb_prop _].
    split; [done|]. intros ->. done. }
  exists (Words.absolute elems), name. unfold mapDir, mapName.
  rewrite Hpath. split_and!; [| |done].
  - rewrite Dir_split, Clean_absolute_dir by done. by destruct elems.
  - do 2 f_equal. destruct name as [|c name]; [done|].
    rewrite (Base_chars _ c (filepath.chars name)
               ("/"%char :: rev (filepath.chars (Words.absolute elems))));
      [apply (text_chars (String c name))| | |done].
    + rewrite !chars_app, !rev_app_distr. simpl. by rewrite <- !app_assoc.
    + by apply (slash_free_chars (String c name)).
Qed.

Lemma mapDir_mapName_recompose_witness :
  ∃ dir base,
    mapDir 0 0 (record_of (fun _ => 0) "/usr/bin/ls") = Ok (VStr dir) ∧
    mapName 0 0 (record_of (fun _ => 0) "/usr/bin/ls") = Ok (VStr base) ∧
    dir +:+ "/" +:+ base = "/usr/bin/ls".
Proof.
  apply (mapDir_mapName_recompose 0 0 (record_of (fun _ => 0) "/usr/bin/ls")
           ["usr"; "bin"] "ls"); [discriminate| |reflexivity|reflexivity].
  repeat constructor.
Defined.

(** ** More on link paths *)

Lemma ascii_no_space_runes (t rest : string) :
  Words.ascii_no_space t = true →
  utf8.runes (t +:+ rest) = byte_vals t ++ utf8.runes rest ∧
  Forall (λ r, negb (fmt.isSpace r) = true) (byte_vals t) ∧
  utf8.encode (byte_vals t) = t.
Proof.
  induction t as [|c t IH]; intros Ht; [done|].
  cbn [Words.ascii_no_space] in Ht.
  apply andb_prop in Ht as [[Hc%Z.ltb_lt Hsp]%andb_prop Ht].
  destruct (IH Ht) as (Hr & Hall & Henc).
  rewrite append_cons, runes_cons_ascii, Hr by done. cbn [byte_vals].
  rewrite encode_cons_ascii, Henc by done.
  split; [done|]. split; [by constructor|done].
Qed.

(** A link whose target is followed by a space is scanned up to that
    space. *)
Lemma Sscanf_link_word (h1 h2 t rest : string) (v1 v2 : Z) :
  Spec.hex64 h1 = Some v1 → Spec.hex64 h2 = Some v2 →
  Words.ascii_word t = true →
  fmt.Sscanf_link (h1 +:+ "->" +:+ h2 +:+ " " +:+ t +:+ " " +:+ rest)
  = Some (v1, v2, t).
Proof.
  intros H1 H2 [Hne Ht]%andb_prop.
  destruct (ascii_no_space_runes t (String " " rest) Ht) as (Hrunes & Hall & Henc).
  destruct t as [|c t]; [done|]. cbn [byte_vals] in *.
  assert (fmt.isSpace (byte_val c) = false) as Hr
    by (inv Hall; by apply negb_true_iff).
  unfold fmt.Sscanf_link.
  destruct (hex64_runes h1 v1
              ("->" +:+ h2 +:+ " " +:+ String c t +:+ " " +:+ rest) H1)
    as [-> Hsk1].
  change ("->" +:+ h2 +:+ " " +:+ String c t +:+ " " +:+ rest)
    with (String "-" (String ">"
            (h2 +:+ String " " (String c t +:+ String " " rest)))).
  rewrite !runes_cons_ascii by (vm_compute; done).
  destruct (hex64_runes h2 v2 (String " " (String c t +:+ String " " rest)) H2)
    as [-> Hsk2].
  rewrite runes_cons_ascii by (vm_compute; done).
  change (byte_val "-") with 45. change (byte_val ">") with 62.
  change (byte_val " ") with 32.
  rewrite Hsk1. cbn [mbind option_bind].
  rewrite (scanUint_x_hex64 h1 v1) by done.
  cbn [mbind option_bind fmt.literal]. rewrite !Z.eqb_refl.
  cbn [mbind option_bind fmt.literal]. rewrite !Z.eqb_refl.
  cbn [mbind option_bind].
  rewrite Hsk2. cbn [mbind option_bind].
  rewrite (scanUint_x_hex64 h2 v2) by done.
  cbn [mbind option_bind]. rewrite Hrunes.
  rewrite runes_cons_ascii by (vm_compute; done).
  change (byte_val " ") with 32.
  rewrite <- app_comm_cons.
  rewrite format_space_blank by done. cbn [mbind option_bind].
  rewrite SkipSpace_not_space by done. cbn [mbind option_bind].
  rewrite app_comm_cons.
  rewrite convertString_s_word by done. cbn [mbind option_bind].
  by rewrite Henc.
Qed.

(** A hexadecimal number that does not fit in 64 bits stops the scan. *)
Lemma Sscanf_link_overflow (h1 tail : string) (v : Z) :
  Spec.numeral 16 h1 = Some v → Uint64.max < v →
  fmt.Sscanf_link (h1 +:+ "->" +:+ tail) = None.
Proof.
  intros Hnum Hv. destruct h1 as [|c h1]; [done|].
  unfold Spec.numeral in Hnum.
  destruct (hex_digits_value_runes (String c h1) ("->" +:+ tail) 0 v Hnum)
    as (Hrunes & Hall & Henc).
  pose proof (ParseUint_spec 16 (String c h1) ltac:(lia)) as HU.
  unfold Spec.numeral in HU. rewrite Hnum in HU.
  destruct (Z.leb_spec v Uint64.max); [lia|].
  pose proof Hnum as Hc. cbn [Spec.digits_value] in Hc.
  destruct (Spec.digit c) as [d|] eqn:Hd; [|done].
  cbn [mbind option_bind] in Hc.
  destruct (d <? 16) eqn:Hlt; [|done].
  destruct (hex_digit_rune c d Hd Hlt) as (Hhex & Hascii & Hsp).
  unfold fmt.Sscanf_link. rewrite Hrunes.
  change ("->" +:+ tail) with (String "-" (String ">" tail)).
  rewrite runes_cons_ascii by (vm_compute; done).
  change (byte_val "-") with 45.
  cbn [byte_vals] in *. rewrite <- app_comm_cons.
  rewrite SkipSpace_not_space by done. cbn [mbind option_bind].
  unfold fmt.scanUint_x.
  rewrite SkipSpace_not_space by done.
  cbn [mbind option_bind fmt.notEOF fmt.scanNumber]. rewrite Hhex.
  inv Hall. rewrite accept_all_app by done.
  cbn [mbind option_bind]. by rewrite Henc, HU.
Qed.

(** X18: [mapLinkPath] cuts the target of a link at its first space: for a
    field [<hex>-><hex> <word> <rest>] the result is the word alone, and
    what follows it is dropped. *)
Theorem mapLinkPath_stops_at_space (src : Source) (attr : Attribute) (r : Record)
    (h1 h2 t rest : string) (v1 v2 : Z) :
  GetStr r attr src = h1 +:+ "->" +:+ h2 +:+ " " +:+ t +:+ " " +:+ rest →
  Spec.hex64 h1 = Some v1 → Spec.hex64 h2 = Some v2 →
  Words.ascii_word t = true →
  mapLinkPath src attr r = Ok (VStr t).
Proof.
  intros Hpath H1 H2 Ht. unfold mapLinkPath.
  by rewrite Hpath, (Sscanf_link_word h1 h2 t rest v1 v2).
Qed.

Lemma mapLinkPath_stops_at_space_witness :
  mapLinkPath 0 0 (record_of (fun _ => 0) "1f->2e /my dir/file")
  = Ok (VStr "/my").
Proof.
  apply (mapLinkPath_stops_at_space 0 0
           (record_of (fun _ => 0) "1f->2e /my dir/file")
           "1f" "2e" "/my" "dir/file" 31 46); reflexivity.
Defined.

(** X19: a field that starts with a hexadecimal number too large for 64 bits,
    followed by the arrow, is not taken for a link: [mapLinkPath] returns it
    unchanged, whatever follows. *)
Theorem mapLinkPath_overflow_unchanged (src : Source) (attr : Attribute)
    (r : Record) (h1 tail : string) (v : Z) :
  GetStr r attr src = h1 +:+ "->" +:+ tail →
  Spec.numeral 16 h1 = Some v → Uint64.max < v →
  mapLinkPath src attr r = Ok (VStr (GetStr r attr src)).
Proof.
  intros Hpath Hnum Hv. unfold mapLinkPath.
  by rewrite Hpath, (Sscanf_link_overflow h1 tail v).
Qed.

Lemma mapLinkPath_overflow_unchanged_witness :
  mapLinkPath 0 0 (record_of (fun _ => 0) "10000000000000000->1 /target")
  = Ok (VStr "10000000000000000->1 /target").
Proof.
  apply (mapLinkPath_overflow_unchanged 0 0
           (record_of (fun _ => 0) "10000000000000000->1 /target")
           "10000000000000000" "1 /target" (2 ^ 64)); reflexivity.
Defined.

(** ** The comparison of [getFields] *)

Lemma fields_less_iff (a b : string) :
  fields_less a b = true ↔ Spec.fields_le a b ∧ a ≠ b.
Proof.
  split.
  - intros Hless. split.
    + apply fields_not_after. by apply fields_less_asym.
    + intros ->. apply fields_less_asym in Hless as Hless'. congruence.
  - intros [Hle Hne]. destruct (fields_less a b) eqn:Hless; [done|].
    exfalso. apply Hne. apply fields_le_antisym; [done|].
    by apply fields_not_after.
Qed.

(** X14: the comparison that [getFields] passes to the sort is a strict total
    order on names: no name is less than itself, the comparison is
    transitive, and of two different names exactly one is less than the
    other. *)
Theorem fields_less_strict_total_order :
  (∀ a, fields_less a a = false) ∧
  (∀ a b c, fields_less a b = true → fields_less b c = true →
            fields_less a c = true) ∧
  (∀ a b, a ≠ b → fields_less a b = negb (fields_less b a)).
Proof.
  split_and!.
  - intros a. destruct (fields_less a a) eqn:Hless; [|done].
    by apply fields_less_iff in Hless as [_ ?].
  - intros a b c [Hab Hne]%fields_less_iff [Hbc Hne']%fields_less_iff.
    apply fields_less_iff. split; [by apply (fields_le_trans a b c)|].
    intros ->. apply Hne. by apply fields_le_antisym.
  - intros a b Hne. destruct (fields_less b a) eqn:Hba; simpl.
    + by apply fields_less_asym.
    + apply fields_less_iff. split; [|done]. by apply fields_not_after.
Qed.

Lemma fields_less_strict_total_order_witness :
  fields_less "ts" "proc.name" = negb (fields_less "proc.name" "ts").
Proof.
  apply (proj2 (proj2 fields_less_strict_total_order) "ts" "proc.name").
  discriminate.
Defined.
